(** * qmxgraph: the callback-composition primitives and the debug guard

    A shallow embedding of [qmxgraph/callback_blocker.py]
    ([CallbackBlocker], [CallbackBarrier], [CallbackBarrier.StoredResult])
    of [QmxGraphApi.call_api] / [call_api_debug] from [qmxgraph/api.py],
    and of [QmxGraph.is_loaded] and the methods of [QmxGraph] that connect
    handlers and bridges from [qmxgraph/widget.py].

    Python objects are records; a method is a computation in a small
    state-and-exception monad.  A raised exception does not roll the object
    back: the state reached at the [raise] is the state the caller sees. *)

From stdpp Require Import base gmap strings list pretty.

(** ** Python exceptions *)

Inductive exn :=
| RuntimeError (msg : string)
| ValueError (msg : string)
| TypeError (msg : string)
| KeyError (key : string)
| AssertionError (msg : string)
| TimeoutError (msg : string)
| CallbackCalledTwiceError (msg : string)
| InvalidJavaScriptError (msg : string)
| NoSuchObject.
(* [NoSuchObject] is not a Python exception.  It is what the model answers
   when a statement names an address at which no object was allocated; a
   Python program only ever holds references to live objects. *)

(** ** Methods as computations *)

Inductive result (A : Type) :=
| Return (a : A)
| Raise (e : exn).
Arguments Return {A} a.
Arguments Raise {A} e.

Definition M (S A : Type) : Type := S -> S * result A.

#[global] Instance M_ret {S} : MRet (M S) :=
  fun A a s => (s, Return a).

#[global] Instance M_bind {S} : MBind (M S) :=
  fun A B f m s =>
    match m s with
    | (s', Return a) => f a s'
    | (s', Raise e) => (s', Raise e)
    end.

Definition raise {S A} (e : exn) : M S A := fun s => (s, Raise e).

(* [for x in l: body(x)] *)
Fixpoint for_ {S A} (l : list A) (body : A -> M S unit) : M S unit :=
  match l with
  | [] => mret tt
  | x :: l' => body x ;; for_ l' body
  end.

(* The double quote character, for messages that contain one. *)
Definition dquote : string := String (Ascii.ascii_of_nat 34) EmptyString.
(* [\n] *)
Definition newline : string := String (Ascii.ascii_of_nat 10) EmptyString.

(* Python values of two types, for scenarios that mix them. *)
Inductive pyval :=
| PyInt (z : Z)
| PyStr (s : string).

(* [repr(key)] of a hashable key. *)
Class Repr (A : Type) := repr : A -> string.

(* [repr] of an [int] *)
#[global] Instance repr_Z : Repr Z := pretty.

(* [repr] of a [str] that has no quote and nothing to escape in it *)
#[global] Instance repr_string : Repr string := fun s => "'" +:+ s +:+ "'".

(* What a call of a callable of the client does, as far as the caller can
   tell: it returns ([None]) or it raises. *)
Class Behaviour (Callable : Type) := raises : Callable -> option exn.

(* Callables known by their names: the one called boom raises, the others
   return. *)
#[global] Instance named_behaviour : Behaviour string :=
  fun name => if String.eqb name "boom" then Some (RuntimeError "boom") else None.

(* ------------------------------------------------------------------------- *)
(** * CallbackBarrier *)
(* ------------------------------------------------------------------------- *)

Module Barrier.

#[local] Open Scope Z_scope.

(* The only barrier of the model; a slot's [_parent] is a reference to it. *)
Inductive BarrierRef := ThisBarrier.

(* Address of a [StoredResult] object in the heap. *)
Abbreviation addr := nat.

Section barrier.

Context {Key : Type} `{Countable Key} `{Repr Key}.
(* [Any]: the values handed to callbacks; [Callable]: the continuations. *)
Context {Any Callable : Type} `{Behaviour Callable}.

Record StoredResult := mkStoredResult {
  _parent : option BarrierRef;
  _key : string;
  _value : option Any;
  _called : bool
}.

Record CallbackBarrier := mkCallbackBarrier {
  _waiting_on_barrier : bool;
  _crossed : bool;
  _calls_pending : Z;
  _stored_results : gmap Key addr;
  _to_execute_after_barrier : list (Callable * bool)
}.

(* What the barrier does to the outside: [CrossBarrier] marks one run of
   [_cross_barrier]; [Invoked f (Some ThisBarrier)] is the call [f(self)],
   [Invoked f None] the call [f()]. *)
Inductive event :=
| CrossBarrier
| Invoked (to_call : Callable) (arg : option BarrierRef).

Record World := mkWorld {
  self : CallbackBarrier;
  heap : list StoredResult;
  trace : list event
}.

(** Attribute access *)

Definition getattr {A} (f : CallbackBarrier -> A) : M World A :=
  fun w => (w, Return (f (self w))).

Definition setattr (f : CallbackBarrier -> CallbackBarrier) : M World unit :=
  fun w => (mkWorld (f (self w)) (heap w) (trace w), Return tt).

Definition set_waiting_on_barrier (v : bool) (b : CallbackBarrier) :=
  mkCallbackBarrier v (_crossed b) (_calls_pending b) (_stored_results b)
    (_to_execute_after_barrier b).

Definition set_crossed (v : bool) (b : CallbackBarrier) :=
  mkCallbackBarrier (_waiting_on_barrier b) v (_calls_pending b)
    (_stored_results b) (_to_execute_after_barrier b).

Definition set_calls_pending (v : Z) (b : CallbackBarrier) :=
  mkCallbackBarrier (_waiting_on_barrier b) (_crossed b) v (_stored_results b)
    (_to_execute_after_barrier b).

Definition set_stored_results (v : gmap Key addr) (b : CallbackBarrier) :=
  mkCallbackBarrier (_waiting_on_barrier b) (_crossed b) (_calls_pending b) v
    (_to_execute_after_barrier b).

Definition set_to_execute_after_barrier (v : list (Callable * bool))
    (b : CallbackBarrier) :=
  mkCallbackBarrier (_waiting_on_barrier b) (_crossed b) (_calls_pending b)
    (_stored_results b) v.

Definition emit (e : event) : M World unit :=
  fun w => (mkWorld (self w) (heap w) (trace w ++ [e]), Return tt).

(* Object creation: the new object lives at the next free address. *)
Definition alloc (r : StoredResult) : M World addr :=
  fun w => (mkWorld (self w) (heap w ++ [r]) (trace w),
            Return (length (heap w))).

Definition deref (a : addr) : M World StoredResult :=
  fun w => match heap w !! a with
           | Some r => (w, Return r)
           | None => (w, Raise NoSuchObject)
           end.

Definition setslot (a : addr) (f : StoredResult -> StoredResult) : M World unit :=
  fun w => (mkWorld (self w) (alter f a (heap w)) (trace w), Return tt).

Definition set_parent (v : option BarrierRef) (r : StoredResult) :=
  mkStoredResult v (_key r) (_value r) (_called r).

Definition set_value (v : option Any) (r : StoredResult) :=
  mkStoredResult (_parent r) (_key r) v (_called r).

Definition set_called (v : bool) (r : StoredResult) :=
  mkStoredResult (_parent r) (_key r) (_value r) v.

(** ** The methods of [CallbackBarrier] *)

(* [CallbackBarrier.__init__] *)
Definition __init__ : World :=
  mkWorld (mkCallbackBarrier false false 0 ∅ []) [] [].

(* A continuation is code of the client: [to_call(self)] or [to_call()].
   The barrier sees that the call was made and whether it returned or raised;
   the continuation is taken not to change the barrier while it runs. *)
Definition invoke (c : Callable * bool) : M World unit :=
  let '(to_call, pass_self) := c in
  (if pass_self then emit (Invoked to_call (Some ThisBarrier))
   else emit (Invoked to_call None)) ;;
  match raises to_call with
  | Some e => raise e
  | None => mret tt
  end.

(* The first line is for the trace only: a run of [_cross_barrier] begins. *)
Definition _cross_barrier : M World unit :=
  emit CrossBarrier ;;
  setattr (set_crossed true) ;;
  setattr (set_waiting_on_barrier false) ;;
  to_execute_after_barrier ← getattr _to_execute_after_barrier ;
  setattr (set_to_execute_after_barrier []) ;;
  for_ to_execute_after_barrier invoke.

Definition register (to_call : Callable) (pass_self : bool) : M World unit :=
  setattr (fun b => set_to_execute_after_barrier
                      (_to_execute_after_barrier b ++ [(to_call, pass_self)]) b) ;;
  crossed ← getattr _crossed ;
  if (crossed : bool) then _cross_barrier else mret tt.

Definition increment (n : Z) : M World unit :=
  waiting ← getattr _waiting_on_barrier ;
  crossed ← getattr _crossed ;
  if (waiting || crossed)%bool then
    raise (RuntimeError "can't increment barrier after wait")
  else if n <? 1 then
    raise (ValueError "`n` should be greater that 0 (zero)")
  else
    setattr (fun b => set_calls_pending (_calls_pending b + n) b).

(* [CallbackBarrier.StoredResult.__init__] *)
Definition StoredResult_init (parent : BarrierRef) (key : Key) : StoredResult :=
  mkStoredResult (Some parent) (repr key) None false.

Definition create_stored_result_callback (key : Key) : M World addr :=
  stored ← getattr _stored_results ;
  if decide (is_Some (stored !! key)) then
    raise (ValueError ("stored result " +:+ dquote +:+ "key" +:+ dquote
                       +:+ " already in use (" +:+ dquote +:+ "key" +:+ dquote
                       +:+ "s should be unique)"))
  else
    stored_result ← alloc (StoredResult_init ThisBarrier key) ;
    increment 1 ;;
    setattr (fun b => set_stored_results (<[key := stored_result]> (_stored_results b)) b) ;;
    mret stored_result.

Definition __getitem__ (item : Key) : M World addr :=
  stored ← getattr _stored_results ;
  match stored !! item with
  | Some a => mret a
  | None => create_stored_result_callback item
  end.

(* The property [StoredResult.value] *)
Definition StoredResult_value (a : addr) : M World (option Any) :=
  r ← deref a ;
  if _called r then mret (_value r)
  else raise (AssertionError ("stored results key: " +:+ _key r)).

Definition get_result (key : Key) : M World (option Any) :=
  stored ← getattr _stored_results ;
  match stored !! key with
  | Some a => StoredResult_value a
  | None => raise (KeyError (repr key))
  end.

Definition wait : M World unit :=
  crossed ← getattr _crossed ;
  if (crossed : bool) then raise (RuntimeError "can't wait on crossed barrier") else
  waiting ← getattr _waiting_on_barrier ;
  if (waiting : bool) then raise (RuntimeError "already waiting on barrier") else
  pending ← getattr _calls_pending ;
  if pending <? 0 then
    raise (RuntimeError "barrier already called more times than expected")
  else
    setattr (set_waiting_on_barrier true) ;;
    pending ← getattr _calls_pending ;
    if pending =? 0 then _cross_barrier else mret tt.

(* [CallbackBarrier.__call__], with its positional and keyword arguments *)
Definition __call__ (args : list (option Any))
    (kwargs : list (string * option Any)) : M World unit :=
  crossed ← getattr _crossed ;
  if (crossed : bool) then
    raise (RuntimeError "unexpected call after crossing barrier")
  else
    setattr (fun b => set_calls_pending (_calls_pending b - 1) b) ;;
    waiting ← getattr _waiting_on_barrier ;
    pending ← getattr _calls_pending ;
    if (waiting && (pending =? 0))%bool then _cross_barrier else mret tt.

(* [CallbackBarrier.StoredResult.__call__(value)] on the slot at [a] *)
Definition StoredResult_call (a : addr) (value : option Any) : M World unit :=
  r ← deref a ;
  if _called r then
    raise (RuntimeError "stored result can store only one value")
  else
    setslot a (set_called true) ;;
    setslot a (set_value value) ;;
    r ← deref a ;
    match _parent r with
    | Some ThisBarrier => __call__ [value] []
    | None => raise (TypeError "'NoneType' object is not callable")
    end ;;
    setslot a (set_parent None).

Definition __enter__ : M World BarrierRef := mret ThisBarrier.

(* [__exit__(type, value, traceback)]: [value] is the exception that left
   the body of the [with] statement, [None] when there was none. *)
Definition __exit__ (value : option exn) : M World unit := wait.

(** ** Programs over one barrier *)

(* One statement of a client: a method call on the barrier or on one of its
   slots.  What the call returns is dropped. *)
Inductive stmt :=
| DoRegister (to_call : Callable) (pass_self : bool)
| DoCreateStoredResultCallback (key : Key)
| DoGetItem (item : Key)
| DoGetResult (key : Key)
| DoIncrement (n : Z)
| DoWait
| DoCall (args : list (option Any)) (kwargs : list (string * option Any))
| DoSlotCall (a : addr) (value : option Any)
| DoSlotValue (a : addr)
| DoExit (value : option exn).

Definition exec (s : stmt) : M World unit :=
  match s with
  | DoRegister to_call pass_self => register to_call pass_self
  | DoCreateStoredResultCallback key => create_stored_result_callback key ;; mret tt
  | DoGetItem item => __getitem__ item ;; mret tt
  | DoGetResult key => get_result key ;; mret tt
  | DoIncrement n => increment n
  | DoWait => wait
  | DoCall args kwargs => __call__ args kwargs
  | DoSlotCall a value => StoredResult_call a value
  | DoSlotValue a => StoredResult_value a ;; mret tt
  | DoExit value => __exit__ value
  end.

(* Statements one after the other; the first exception ends the script. *)
Definition script (l : list stmt) : M World unit := for_ l exec.

(* Statements one after the other, the client catching what is raised and
   going on with the barrier as the failed call left it. *)
Definition attempt (l : list stmt) (w : World) : World :=
  foldl (fun w s => (exec s w).1) w l.

(* Every state a client can bring a new barrier to. *)
Definition reachable (w : World) : Prop :=
  exists l, w = attempt l __init__.

(** The three phases of the class docstring *)
Definition editing (w : World) : Prop :=
  _waiting_on_barrier (self w) = false /\ _crossed (self w) = false.

Definition waiting (w : World) : Prop :=
  _waiting_on_barrier (self w) = true /\ _crossed (self w) = false.

Definition crossed (w : World) : Prop :=
  _crossed (self w) = true.

(** Reading a list of statements *)

Definition is_call (s : stmt) : bool :=
  match s with DoCall _ _ => true | _ => false end.

(* [increment(n)], [wait()] and calls of the barrier *)
Definition is_core (s : stmt) : bool :=
  match s with DoIncrement _ | DoWait | DoCall _ _ => true | _ => false end.

(* What a client may do with a barrier it has not waited on yet:
   register a continuation, increment by at least one, or call it. *)
Definition is_editing_stmt (s : stmt) : bool :=
  match s with
  | DoRegister _ _ | DoCall _ _ => true
  | DoIncrement n => bool_decide (1 <= n)
  | _ => false
  end.

(* The total of the increments that [increment] accepts. *)
Fixpoint incremented (l : list stmt) : Z :=
  match l with
  | [] => 0
  | DoIncrement n :: l' => (if 1 <=? n then n else 0) + incremented l'
  | _ :: l' => incremented l'
  end.

(* How often the barrier is called. *)
Fixpoint invocations (l : list stmt) : Z :=
  match l with
  | [] => 0
  | DoCall _ _ :: l' => 1 + invocations l'
  | _ :: l' => invocations l'
  end.

(* The continuations registered, in the order of registration. *)
Fixpoint registered (l : list stmt) : list (Callable * bool) :=
  match l with
  | [] => []
  | DoRegister to_call pass_self :: l' => (to_call, pass_self) :: registered l'
  | _ :: l' => registered l'
  end.

(* The call that crossing makes to a continuation. *)
Definition invocation (c : Callable * bool) : event :=
  Invoked c.1 (if c.2 then Some ThisBarrier else None).

(* The continuations that the loop of [_cross_barrier] gets to call: all of
   them up to the first one that raises, that one included. *)
Fixpoint called_of (cs : list (Callable * bool)) : list (Callable * bool) :=
  match cs with
  | [] => []
  | c :: cs' =>
      match raises c.1 with
      | Some _ => [c]
      | None => c :: called_of cs'
      end
  end.

(* How the loop of [_cross_barrier] ends. *)
Fixpoint outcome_of (cs : list (Callable * bool)) : result unit :=
  match cs with
  | [] => Return tt
  | c :: cs' =>
      match raises c.1 with
      | Some e => Raise e
      | None => outcome_of cs'
      end
  end.

(* While a barrier waits it has not crossed and still expects a call. *)
Definition phase_ok (b : CallbackBarrier) : Prop :=
  _waiting_on_barrier b = true -> _crossed b = false /\ 1 <= _calls_pending b.

(* The state of a barrier that crossed with continuations [cs] without ever
   having had a slot. *)
Definition crossed_world (cs : list (Callable * bool)) : World :=
  mkWorld (mkCallbackBarrier false true 0 ∅ []) []
    (CrossBarrier :: map invocation cs).

(* The state of a barrier that waits with continuations [cs], without ever
   having had a slot. *)
Definition waiting_world (pending : Z) (cs : list (Callable * bool)) : World :=
  mkWorld (mkCallbackBarrier true false pending ∅ cs) [] [].

(* The slot at [a] has been called with [value]. *)
Definition delivered (w : World) (a : addr) (value : option Any) : Prop :=
  exists r, heap w !! a = Some r /\ _called r = true /\ _value r = value.

(* [with barrier: body].  [__exit__] returns [None], so an exception of the
   body goes on to the caller once [__exit__] is back, unless [__exit__]
   raises one of its own. *)
Definition with_ (body : M World unit) : M World unit :=
  fun w =>
    match (__enter__ ;; body) w with
    | (w1, Return _) => __exit__ None w1
    | (w1, Raise e) =>
        match __exit__ (Some e) w1 with
        | (w2, Return _) => (w2, Raise e)
        | r => r
        end
    end.

(** ** How a statement changes the barrier

    The effect of one statement on the fields of the barrier and on the
    trace, read off the methods: [registered] is what the statement
    registers. *)

(* The barrier after [_cross_barrier], and the trace after it. *)
Definition cross (b : CallbackBarrier) : CallbackBarrier :=
  mkCallbackBarrier false true (_calls_pending b) (_stored_results b) [].

Definition cross_trace (b : CallbackBarrier) (t : list event) : list event :=
  t ++ CrossBarrier :: map invocation (called_of (_to_execute_after_barrier b)).

Inductive transition (b : CallbackBarrier) (t : list event)
    : list (Callable * bool) -> CallbackBarrier -> list event -> Prop :=
| transition_none : transition b t [] b t
| transition_register c :
    _crossed b = false ->
    transition b t [c]
      (set_to_execute_after_barrier (_to_execute_after_barrier b ++ [c]) b) t
| transition_register_late c :
    _crossed b = true ->
    transition b t [c]
      (cross (set_to_execute_after_barrier (_to_execute_after_barrier b ++ [c]) b))
      (cross_trace
         (set_to_execute_after_barrier (_to_execute_after_barrier b ++ [c]) b) t)
| transition_increment n :
    _waiting_on_barrier b = false -> _crossed b = false -> 1 <= n ->
    transition b t [] (set_calls_pending (_calls_pending b + n) b) t
| transition_create key a :
    _waiting_on_barrier b = false -> _crossed b = false ->
    _stored_results b !! key = None ->
    transition b t []
      (set_stored_results (<[key := a]> (_stored_results b))
         (set_calls_pending (_calls_pending b + 1) b)) t
| transition_wait :
    _waiting_on_barrier b = false -> _crossed b = false ->
    0 < _calls_pending b ->
    transition b t [] (set_waiting_on_barrier true b) t
| transition_wait_cross :
    _waiting_on_barrier b = false -> _crossed b = false ->
    _calls_pending b = 0 ->
    transition b t [] (cross b) (cross_trace b t)
| transition_call :
    _crossed b = false ->
    (_waiting_on_barrier b = true -> _calls_pending b <> 1) ->
    transition b t [] (set_calls_pending (_calls_pending b - 1) b) t
| transition_call_cross :
    _waiting_on_barrier b = true -> _crossed b = false ->
    _calls_pending b = 1 ->
    transition b t [] (cross (set_calls_pending 0 b)) (cross_trace b t).

(* The calls to continuations in a trace. *)
Definition is_invocation (e : event) : bool :=
  match e with Invoked _ _ => true | CrossBarrier => false end.

Definition calls_made (t : list event) : list event :=
  List.filter is_invocation t.

(* The effect of one statement on the slots and on the mapping from keys to
   slots. *)
Inductive store_transition (s : stmt) (h : list StoredResult) (m : gmap Key addr)
    : list StoredResult -> gmap Key addr -> Prop :=
| store_none : store_transition s h m h m
| store_lost key :
    s = DoCreateStoredResultCallback key \/ s = DoGetItem key ->
    m !! key = None ->
    store_transition s h m (h ++ [StoredResult_init ThisBarrier key]) m
| store_create key :
    s = DoCreateStoredResultCallback key \/ s = DoGetItem key ->
    m !! key = None ->
    store_transition s h m (h ++ [StoredResult_init ThisBarrier key])
      (<[key := length h]> m)
| store_fill a value r p :
    s = DoSlotCall a value ->
    h !! a = Some r -> _called r = false ->
    store_transition s h m (<[a := mkStoredResult p (_key r) value true]> h) m.

(* Slots and mapping fit together: every key has a slot of its own, made for
   that key, and a slot that was not called still knows its barrier. *)
Record well_formed (w : World) : Prop := mk_well_formed {
  wf_slot : forall key a,
    _stored_results (self w) !! key = Some a ->
    exists r, heap w !! a = Some r /\ _key r = repr key;
  wf_own : forall key1 key2 a,
    _stored_results (self w) !! key1 = Some a ->
    _stored_results (self w) !! key2 = Some a -> key1 = key2;
  wf_parent : forall a r,
    heap w !! a = Some r -> _called r = false -> _parent r = Some ThisBarrier
}.

(* What a crossed barrier looks like. *)
Definition crossed_ok (b : CallbackBarrier) : Prop :=
  _crossed b = true ->
  _calls_pending b = 0 /\ _waiting_on_barrier b = false
  /\ _to_execute_after_barrier b = [].

(* The keys for which a list of statements asks for a slot. *)
Fixpoint keys_asked (l : list stmt) : list Key :=
  match l with
  | [] => []
  | DoCreateStoredResultCallback key :: l' => key :: keys_asked l'
  | DoGetItem key :: l' => key :: keys_asked l'
  | _ :: l' => keys_asked l'
  end.

End barrier.

End Barrier.

(* ------------------------------------------------------------------------- *)
(** * CallbackBlocker *)
(* ------------------------------------------------------------------------- *)

Module Blocker.

#[local] Open Scope Z_scope.

Section blocker.

Context {Any : Type}.

(* A [QTimer]: its interval in milliseconds, whether it runs, and whether its
   [timeout] signal is connected to [_quit_loop_by_timeout]. *)
Record QTimer := mkQTimer {
  interval : Z;
  singleShot : bool;
  active : bool;
  connected : bool
}.

(* [_loop] is the [QEventLoop]; all the blocker needs of it is whether it is
   running. *)
Record CallbackBlocker := mkCallbackBlocker {
  timeout : option Z;
  args : option (list Any);
  msg : option string;
  kwargs : option (list (string * Any));
  called : bool;
  _loop : bool;
  _timer : option QTimer
}.

Definition DEFAULT_TIMEOUT : Z := 1000.

Definition __init__ (timeout : option Z) (msg : option string) : CallbackBlocker :=
  mkCallbackBlocker timeout None msg None false false
    (match timeout with
     | None => None
     | Some t => Some (mkQTimer t true false false)
     end).

Definition set_args (v : option (list Any)) (b : CallbackBlocker) :=
  mkCallbackBlocker (timeout b) v (msg b) (kwargs b) (called b) (_loop b) (_timer b).

Definition set_kwargs (v : option (list (string * Any))) (b : CallbackBlocker) :=
  mkCallbackBlocker (timeout b) (args b) (msg b) v (called b) (_loop b) (_timer b).

Definition set_called (v : bool) (b : CallbackBlocker) :=
  mkCallbackBlocker (timeout b) (args b) (msg b) (kwargs b) v (_loop b) (_timer b).

Definition set_loop (v : bool) (b : CallbackBlocker) :=
  mkCallbackBlocker (timeout b) (args b) (msg b) (kwargs b) (called b) v (_timer b).

Definition set_timer (v : option QTimer) (b : CallbackBlocker) :=
  mkCallbackBlocker (timeout b) (args b) (msg b) (kwargs b) (called b) (_loop b) v.

Definition getattr {A} (f : CallbackBlocker -> A) : M CallbackBlocker A :=
  fun b => (b, Return (f b)).

Definition setattr (f : CallbackBlocker -> CallbackBlocker) : M CallbackBlocker unit :=
  fun b => (f b, Return tt).

(* [self._loop.quit()]: a loop that is not running stays as it is. *)
Definition quit : M CallbackBlocker unit := setattr (set_loop false).

(* [timer.timeout.connect(self._quit_loop_by_timeout)] *)
Definition connect (t : QTimer) : QTimer :=
  mkQTimer (interval t) (singleShot t) (active t) true.

(* [silent_disconnect(timer.timeout, self._quit_loop_by_timeout)]: the
   errors of [disconnect] on a signal that is not connected are suppressed. *)
Definition silent_disconnect (t : QTimer) : QTimer :=
  mkQTimer (interval t) (singleShot t) (active t) false.

(* [timer.start()] and [timer.stop()] *)
Definition start (t : QTimer) : QTimer :=
  mkQTimer (interval t) (singleShot t) true (connected t).

Definition stop (t : QTimer) : QTimer :=
  mkQTimer (interval t) (singleShot t) false (connected t).

Definition _cleanup : M CallbackBlocker unit :=
  timer ← getattr _timer ;
  match timer with
  | Some t =>
      setattr (set_timer (Some (silent_disconnect t))) ;;
      setattr (set_timer (Some (stop (silent_disconnect t)))) ;;
      setattr (set_timer None)
  | None => mret tt
  end.

(* [try: body finally: handler], for a handler that does not raise *)
Definition try_finally {S A} (body : M S A) (handler : M S unit) : M S A :=
  fun s =>
    match body s with
    | (s', r) => (fst (handler s'), r)
    end.

Definition _quit_loop_by_timeout : M CallbackBlocker unit :=
  try_finally _cleanup quit.

Definition __call__ (args : list Any) (kwargs : list (string * Any))
    : M CallbackBlocker unit :=
  called ← getattr called ;
  if (called : bool) then
    raise (CallbackCalledTwiceError "Callback called twice")
  else
    try_finally
      (setattr (set_args (Some args)) ;;
       setattr (set_kwargs (Some kwargs)) ;;
       setattr (set_called true) ;;
       _cleanup)
      quit.

(** The event loop.  While [exec_] runs, Qt hands the loop the events of the
    outside world, one at a time: the remote call completes and the blocker
    is called with its result, or the interval of the timer has gone by. *)
Inductive loop_event :=
| CallbackFired (args : list Any) (kwargs : list (string * Any))
| TimerExpired.

(* A timer that runs emits [timeout]; the slot runs when it is connected. *)
Definition dispatch (ev : loop_event) : M CallbackBlocker unit :=
  match ev with
  | CallbackFired args kwargs => __call__ args kwargs
  | TimerExpired =>
      timer ← getattr _timer ;
      match timer with
      | Some t =>
          if (active t && connected t)%bool then _quit_loop_by_timeout
          else mret tt
      | None => mret tt
      end
  end.

(* The running loop handles events until [quit] was called.  [None]: the
   events are used up and the loop still runs, so [exec_] does not return.
   An exception in a handler leaves the loop through [exec_]. *)
Fixpoint run_loop (events : list loop_event) (b : CallbackBlocker)
    : option (CallbackBlocker * result unit) :=
  match events with
  | [] => None
  | ev :: rest =>
      match dispatch ev b with
      | (b', Raise e) => Some (b', Raise e)
      | (b', Return _) =>
          if _loop b' then run_loop rest b' else Some (b', Return tt)
      end
  end.

(* [self._loop.exec_()] *)
Definition exec_ (events : list loop_event) (b : CallbackBlocker)
    : option (CallbackBlocker * result unit) :=
  run_loop events (set_loop true b).

(* [f"Callback wasn't called after {self.timeout}ms."] and, for a message
   that is neither [None] nor empty, [f'\n> {self.msg}'] *)
Definition timeout_message (b : CallbackBlocker) : string :=
  let head :=
    "Callback wasn't called after "
    +:+ match timeout b with Some t => pretty t | None => "None" end
    +:+ "ms." in
  match msg b with
  | Some (String c m) => head +:+ newline +:+ "> " +:+ String c m
  | _ => head
  end.

Definition wait (events : list loop_event) (b : CallbackBlocker)
    : option (CallbackBlocker * result unit) :=
  if called b then Some (b, Return tt)
  else
    let b1 :=
      match _timer b with
      | Some t => set_timer (Some (start (connect t))) b
      | None => b
      end in
    match exec_ events b1 with
    | None => None
    | Some (b2, Raise e) => Some (b2, Raise e)
    | Some (b2, Return _) =>
        if called b2 then Some (b2, Return tt)
        else Some (b2, Raise (TimeoutError (timeout_message b2)))
    end.

Definition __enter__ : M CallbackBlocker unit := mret tt.

(* [__exit__(type, value, traceback)]: [value] is the exception that left
   the body of the [with] statement, [None] when there was none. *)
Definition __exit__ (value : option exn) (events : list loop_event)
    (b : CallbackBlocker) : option (CallbackBlocker * result unit) :=
  match value with
  | None => wait events b
  | Some _ => Some (b, Return tt)
  end.

(* [with blocker as cb: body].  [__exit__] returns [None], so an exception
   of the body goes on to the caller once [__exit__] is back. *)
Definition with_ (body : M CallbackBlocker unit) (events : list loop_event)
    (b : CallbackBlocker) : option (CallbackBlocker * result unit) :=
  match (__enter__ ;; body) b with
  | (b1, Return _) => __exit__ None events b1
  | (b1, Raise e) =>
      match __exit__ (Some e) events b1 with
      | Some (b2, Return _) => Some (b2, Raise e)
      | r => r
      end
  end.

(* The blocker after its first call. *)
Definition completed (args : list Any) (kwargs : list (string * Any))
    (b : CallbackBlocker) : CallbackBlocker :=
  mkCallbackBlocker (timeout b) (Some args) (msg b) (Some kwargs) true false None.

(* The blocker after the wait of a new blocker has timed out. *)
Definition timed_out (b : CallbackBlocker) : CallbackBlocker :=
  mkCallbackBlocker (timeout b) (args b) (msg b) (kwargs b) (called b) false None.

(** ** Programs over one blocker *)

(* One statement of a client.  A wait takes the events that the loop gets
   while it runs. *)
Inductive stmt :=
| DoCall (args : list Any) (kwargs : list (string * Any))
| DoWait (events : list loop_event)
| DoExit (value : option exn) (events : list loop_event).

Definition exec (s : stmt) (b : CallbackBlocker)
    : option (CallbackBlocker * result unit) :=
  match s with
  | DoCall args kwargs => Some (__call__ args kwargs b)
  | DoWait events => wait events b
  | DoExit value events => __exit__ value events b
  end.

(* Statements one after the other, the client catching what is raised.
   [None]: a wait did not return, and nothing comes after it. *)
Fixpoint attempt (l : list stmt) (b : CallbackBlocker) : option CallbackBlocker :=
  match l with
  | [] => Some b
  | s :: l' =>
      match exec s b with
      | Some (b', _) => attempt l' b'
      | None => None
      end
  end.

(* What the docstring of the class says of [args] and [kwargs], and what
   holds of the loop and the timer between two statements. *)
Record blocker_ok (b : CallbackBlocker) : Prop := mk_blocker_ok {
  ok_args : called b = true <-> is_Some (args b);
  ok_kwargs : called b = true <-> is_Some (kwargs b);
  ok_loop : _loop b = false;
  ok_timer : called b = true -> _timer b = None
}.

(* The event that ends a wait: the first call of the callback, or the first
   expiry of the timer when there is a timer. *)
Fixpoint decisive (has_timer : bool) (events : list loop_event)
    : option loop_event :=
  match events with
  | [] => None
  | CallbackFired args kwargs :: _ => Some (CallbackFired args kwargs)
  | TimerExpired :: rest =>
      if has_timer then Some TimerExpired else decisive has_timer rest
  end.

Definition has_timer (b : CallbackBlocker) : bool :=
  match _timer b with Some _ => true | None => false end.

End blocker.

End Blocker.

(* ------------------------------------------------------------------------- *)
(** * QmxGraphApi: the gateway and its debug guard *)
(* ------------------------------------------------------------------------- *)

Module Api.

Section api.

(* [Arg]: an argument of a remote call; [Callback]: a callback of the caller. *)
Context {Arg Callback : Type}.

(* [qmxgraph.js.prepare_js_call(fn, *args)] lives in another module of the
   package; here it is a parameter, and the text of the call is whatever it
   returns. *)
Variable prepare_js_call : string -> list Arg -> string.

(* The callables handed to the widget: the caller's [result_callback] and
   the two closures of [call_api_debug], with the variables they capture. *)
Inductive callback :=
| ResultCallback (result_callback : Callback)
| CheckIsLoaded (result_callback : Callback) (fn : string) (args : list Arg)
| CheckFunctionExist (result_callback : Callback) (fn : string) (args : list Arg).

(* What [call_api] asks of the web view: [eval_js(cb, expr)], with the
   callback first as [api.py] calls it, answers through the callback on a
   later turn of the event loop.  The class of the web view is not among the
   sources.  The graph behind the weak reference [self._graph] is taken to
   be alive. *)
Inductive request :=
| EvalJs (cb : callback) (expr : string).

(* The state is the list of the requests made so far, oldest first. *)
Definition eval_js (cb : callback) (expr : string) : M (list request) unit :=
  fun q => (q ++ [EvalJs cb expr], Return tt).

(* The web view as the body of [QmxGraph.is_loaded] sees it: what its own
   [is_loaded()] returns, and whether what it computes for
   '(typeof graphs !== "undefined") && graphs.isRunning()' is true. *)
Record WebView := mkWebView {
  page_loaded : bool;
  graphs_running : bool
}.

Variable _web_view : WebView.

(* [QmxGraph.is_loaded(self)] of [widget.py]: the method has no parameter
   besides [self] and returns its answer at once.  Python binds the
   arguments of a call before the body runs, so a call with [positional]
   arguments besides [self] raises [TypeError] when there is one or more;
   the wording of the message is CPython's. *)
Definition is_loaded (positional : list callback) : M (list request) bool :=
  match positional with
  | [] => mret (page_loaded _web_view && graphs_running _web_view)
  | _ :: _ =>
      raise (TypeError
               ("is_loaded() takes 1 positional argument but "
                +:+ pretty (1 + length positional)%nat +:+ " were given"))
  end.

Definition check_function_exist (result_callback : Callback) (fn : string)
    (args : list Arg) (function_exist : bool) : M (list request) unit :=
  if function_exist then
    let call := prepare_js_call fn args in
    eval_js (ResultCallback result_callback) ("api." +:+ call)
  else
    raise (InvalidJavaScriptError
             ("Unable to find function " +:+ dquote +:+ fn +:+ dquote
              +:+ " in QmxGraph JavaScript API")).

Definition check_is_loaded (result_callback : Callback) (fn : string)
    (args : list Arg) (is_loaded : bool) : M (list request) unit :=
  if is_loaded then
    eval_js (CheckFunctionExist result_callback fn args)
      ("(typeof api !== 'undefined') && !!api." +:+ fn)
  else
    raise (InvalidJavaScriptError
             "Because graph is unloaded can't call the JavaScript API.").

(* The last statement is [graph.is_loaded(check_is_loaded)]: the closure is
   the one positional argument, and what the method returns is dropped. *)
Definition call_api_debug (result_callback : Callback) (fn : string)
    (args : list Arg) : M (list request) unit :=
  is_loaded [CheckIsLoaded result_callback fn args] ;;
  mret tt.

(* [debug] is [qmxgraph.debug.is_qmxgraph_debug_enabled()]. *)
Definition call_api (debug : bool) (result_callback : Callback) (fn : string)
    (args : list Arg) : M (list request) Callback :=
  (if debug then call_api_debug result_callback fn args
   else
     let call := prepare_js_call fn args in
     eval_js (ResultCallback result_callback) ("api." +:+ call)) ;;
  mret result_callback.

(* Calling a callback with an answer [v], as the web view does on a later
   turn of the event loop.  The caller's own callback is code of the
   caller: it makes no request here. *)
Definition call_back (cb : callback) (v : bool) : M (list request) unit :=
  match cb with
  | ResultCallback _ => mret tt
  | CheckIsLoaded result_callback fn args => check_is_loaded result_callback fn args v
  | CheckFunctionExist result_callback fn args =>
      check_function_exist result_callback fn args v
  end.

End api.

(** ** A wrapper that checks an argument *)

(* The Python values a wrapper hands to [call_api]. *)
Inductive pyarg :=
| ArgNone
| ArgBool (b : bool)
| ArgInt (z : Z)
| ArgStr (s : string).

Section wrappers.

Context {Callback : Type}.
Variable prepare_js_call : string -> list pyarg -> string.
Variable _web_view : WebView.

Definition SOURCE_TERMINAL_CELL : string := "source".
Definition TARGET_TERMINAL_CELL : string := "target".

(* [port_name=None] is the default. *)
Definition set_edge_terminal (debug : bool) (result_callback : Callback)
    (edge_id terminal_type new_terminal_cell_id : string)
    (port_name : option string) : M (list (@request pyarg Callback)) Callback :=
  let valid_terminal_types := [SOURCE_TERMINAL_CELL; TARGET_TERMINAL_CELL] in
  if decide (terminal_type ∈ valid_terminal_types) then
    call_api prepare_js_call _web_view debug result_callback "setEdgeTerminal"
      [ArgStr edge_id; ArgStr terminal_type; ArgStr new_terminal_cell_id;
       match port_name with Some p => ArgStr p | None => ArgNone end]
  else
    raise (ValueError (terminal_type +:+ " is not a valid value for `terminal_type`")).

End wrappers.

End Api.

(* ------------------------------------------------------------------------- *)
(** * Signals: [silent_disconnect] and the handlers and bridges of [QmxGraph] *)
(* ------------------------------------------------------------------------- *)

Module Signals.

Section signals.

(* A slot is whatever can be connected to a signal: a handler of the client,
   or the signal of a bridge of the client. *)
Context {Slot : Type} `{EqDecision Slot}.

(** A Qt signal is known by its connections, oldest first. *)

(* [signal.connect(slot)] *)
Definition connect (slot : Slot) : M (list Slot) unit :=
  fun sig => (sig ++ [slot], Return tt).

(* [signal.disconnect()] takes all connections away; PyQt raises [TypeError]
   when there is none. *)
Definition disconnect_all : M (list Slot) unit :=
  fun sig =>
    match sig with
    | [] => (sig, Raise (TypeError "disconnect() failed"))
    | _ => ([], Return tt)
    end.

Fixpoint remove_first (slot : Slot) (sig : list Slot) : list Slot :=
  match sig with
  | [] => []
  | x :: sig' => if decide (x = slot) then sig' else x :: remove_first slot sig'
  end.

(* [signal.disconnect(slot)] takes a connection to [slot] away; PyQt raises
   [TypeError] when there is none.  Whether one connection or every
   connection to [slot] goes makes a difference only for a slot connected
   more than once; the facts proved about these methods are about signals on
   which no slot is, and these methods keep it so. *)
Definition disconnect (slot : Slot) : M (list Slot) unit :=
  fun sig =>
    if decide (slot ∈ sig) then (remove_first slot sig, Return tt)
    else (sig, Raise (TypeError "disconnect() failed")).

(* [with suppress(...): body] *)
Definition suppress {S} (suppressed : exn -> bool) (body : M S unit) : M S unit :=
  fun s =>
    match body s with
    | (s', Raise e) => if suppressed e then (s', Return tt) else (s', Raise e)
    | r => r
    end.

Definition is_TypeError (e : exn) : bool :=
  match e with TypeError _ => true | _ => false end.

Definition is_TypeError_or_RuntimeError (e : exn) : bool :=
  match e with TypeError _ | RuntimeError _ => true | _ => false end.

(* [callback_blocker.silent_disconnect(signal, slot)] *)
Definition silent_disconnect (slot : option Slot) : M (list Slot) unit :=
  suppress is_TypeError_or_RuntimeError
    (match slot with
     | None => disconnect_all
     | Some slot => disconnect slot
     end).

(** The methods of [QmxGraph] that connect handlers and bridges. *)

(* [set_double_click_handler(handler)], on the connections of
   [self._double_click_bridge.on_double_click].  A handler is [None] or a
   callable, and a callable counts as true. *)
Definition set_double_click_handler (handler : option Slot) : M (list Slot) unit :=
  suppress is_TypeError disconnect_all ;;
  match handler with
  | Some handler => connect handler
  | None => mret tt
  end.

(* [set_popup_menu_handler(handler)], on the connections of
   [self._popup_menu_bridge.on_popup_menu]. *)
Definition set_popup_menu_handler (handler : option Slot) : M (list Slot) unit :=
  suppress is_TypeError disconnect_all ;;
  match handler with
  | Some handler => connect handler
  | None => mret tt
  end.

(* [set_error_bridge(bridge)], on the connections of
   [self._error_bridge.on_error]; the slot is [bridge.on_error]. *)
Definition set_error_bridge (bridge : Slot) : M (list Slot) unit :=
  silent_disconnect (Some bridge) ;;
  connect bridge.

(* The signals of the class [EventsBridge], in the order of the class. *)
Definition EventsBridge_signals : list string :=
  ["on_cells_removed"; "on_cells_added"; "on_label_changed";
   "on_selection_changed"; "on_terminal_changed";
   "on_terminal_with_port_changed"; "on_view_update";
   "on_cells_bounds_changed"].

(* A statement about the signal called [name] of [self._events_bridge]; the
   state gives the connections of each of its signals. *)
Definition on_signal (name : string) (m : M (list Slot) unit)
    : M (string -> list Slot) unit :=
  fun st =>
    match m (st name) with
    | (sig', r) => (fun n => if decide (n = name) then sig' else st n, r)
    end.

(* [set_events_bridge(bridge)]; the slot connected to the signal called
   [signal_name] is the signal of the same name of [bridge]. *)
Definition set_events_bridge (bridge : Slot) : M (string -> list Slot) unit :=
  let signal_name_list := EventsBridge_signals in
  for_ signal_name_list (fun signal_name =>
    on_signal signal_name (silent_disconnect (Some bridge)) ;;
    on_signal signal_name (connect bridge)).

(* One call after the other, on the connections the one before left. *)
Definition successively {S A} (method : A -> M S unit) (l : list A) (s : S) : S :=
  foldl (fun s a => (method a s).1) s l.

End signals.

End Signals.

(* ------------------------------------------------------------------------- *)
(** * Facts about CallbackBarrier *)
(* ------------------------------------------------------------------------- *)

Module BarrierFacts.

Import Barrier.

#[local] Open Scope Z_scope.

Ltac unfold_M :=
  unfold mbind, mret, M_bind, M_ret, raise, getattr, setattr, emit.

(* Take the branches of a computation one test at a time. *)
Ltac branches :=
  repeat (simpl; try done;
          match goal with
          | |- context [if ?b then _ else _] => is_var b; destruct b
          | |- context [if ?b then _ else _] => destruct b eqn:?
          end).

Section facts.

Context {Key : Type} `{KeyCountable : Countable Key} `{KeyRepr : Repr Key}.
Context {Any Callable : Type} `{CallableBehaviour : Behaviour Callable}.

Abbreviation World := (@World Key _ _ Any Callable).
Abbreviation stmt := (@stmt Key Any Callable).

Implicit Types (w : World) (s : stmt) (l : list stmt).

(** ** What each method does, as an equation *)

Lemma for_invoke_eq (cs : list (Callable * bool)) w :
  for_ cs invoke w
  = (mkWorld (self w) (heap w) (trace w ++ map invocation (called_of cs)),
     outcome_of cs).
Proof.
  revert w. induction cs as [|[f p] cs IH]; intros [b h t]; simpl.
  - by rewrite app_nil_r.
  - unfold_M. destruct p; simpl; destruct (raises f) as [e|]; simpl;
      rewrite ?IH; simpl; by rewrite <- ?app_assoc.
Qed.

Lemma cross_barrier_eq w :
  _cross_barrier w
  = (mkWorld
       (mkCallbackBarrier false true (_calls_pending (self w))
          (_stored_results (self w)) [])
       (heap w)
       (trace w ++ CrossBarrier
          :: map invocation (called_of (_to_execute_after_barrier (self w)))),
     outcome_of (_to_execute_after_barrier (self w))).
Proof.
  destruct w as [b h t]. unfold _cross_barrier. unfold_M. simpl.
  rewrite for_invoke_eq. simpl. by rewrite <- app_assoc.
Qed.

(* Continuations that return are all called, and the loop returns. *)
Lemma called_of_returning (cs : list (Callable * bool)) :
  Forall (fun c => raises c.1 = None) cs ->
  called_of cs = cs /\ outcome_of cs = Return tt.
Proof.
  induction 1 as [|c cs Hc _ [IH1 IH2]]; [done|]. simpl.
  by rewrite Hc, IH1, IH2.
Qed.

Lemma call_eq args kwargs w :
  __call__ args kwargs w
  = if _crossed (self w) then
      (w, Raise (RuntimeError "unexpected call after crossing barrier"))
    else
      let w' := mkWorld (set_calls_pending (_calls_pending (self w) - 1) (self w))
                  (heap w) (trace w) in
      if (_waiting_on_barrier (self w) && (_calls_pending (self w) - 1 =? 0))%bool
      then _cross_barrier w' else (w', Return tt).
Proof.
  destruct w as [[wt cr p sr te] h t]. unfold __call__. unfold_M. simpl.
  branches.
Qed.

Lemma increment_eq n w :
  increment n w
  = if (_waiting_on_barrier (self w) || _crossed (self w))%bool then
      (w, Raise (RuntimeError "can't increment barrier after wait"))
    else if n <? 1 then
      (w, Raise (ValueError "`n` should be greater that 0 (zero)"))
    else
      (mkWorld (set_calls_pending (_calls_pending (self w) + n) (self w))
         (heap w) (trace w), Return tt).
Proof.
  destruct w as [[wt cr p sr te] h t]. unfold increment. unfold_M. simpl.
  branches.
Qed.

Lemma wait_eq w :
  wait w
  = if _crossed (self w) then
      (w, Raise (RuntimeError "can't wait on crossed barrier"))
    else if _waiting_on_barrier (self w) then
      (w, Raise (RuntimeError "already waiting on barrier"))
    else if _calls_pending (self w) <? 0 then
      (w, Raise (RuntimeError "barrier already called more times than expected"))
    else
      let w' := mkWorld (set_waiting_on_barrier true (self w)) (heap w) (trace w) in
      if _calls_pending (self w) =? 0 then _cross_barrier w' else (w', Return tt).
Proof.
  destruct w as [[wt cr p sr te] h t]. unfold wait. unfold_M. simpl.
  branches.
Qed.

Lemma register_eq to_call pass_self w :
  register to_call pass_self w
  = let w' := mkWorld
                (set_to_execute_after_barrier
                   (_to_execute_after_barrier (self w) ++ [(to_call, pass_self)])
                   (self w))
                (heap w) (trace w) in
    if _crossed (self w) then _cross_barrier w' else (w', Return tt).
Proof.
  destruct w as [[wt cr p sr te] h t]. unfold register. unfold_M. branches.
Qed.

Lemma create_eq key w :
  create_stored_result_callback key w
  = match _stored_results (self w) !! key with
    | Some _ =>
        (w, Raise (ValueError
                     ("stored result " +:+ dquote +:+ "key" +:+ dquote
                      +:+ " already in use (" +:+ dquote +:+ "key" +:+ dquote
                      +:+ "s should be unique)")))
    | None =>
        let w1 := mkWorld (self w) (heap w ++ [StoredResult_init ThisBarrier key])
                    (trace w) in
        if (_waiting_on_barrier (self w) || _crossed (self w))%bool then
          (w1, Raise (RuntimeError "can't increment barrier after wait"))
        else
          (mkWorld
             (set_stored_results (<[key := length (heap w)]> (_stored_results (self w)))
                (set_calls_pending (_calls_pending (self w) + 1) (self w)))
             (heap w1) (trace w),
           Return (length (heap w)))
    end.
Proof.
  destruct w as [[wt cr p sr te] h t]. unfold create_stored_result_callback.
  unfold_M. simpl. destruct (sr !! key) as [a|] eqn:E.
  - rewrite decide_True; [done | by eexists].
  - rewrite decide_False; [| by intros [? ?]].
    unfold alloc. simpl. rewrite increment_eq. simpl.
    branches.
Qed.

Lemma getitem_eq item w :
  __getitem__ item w
  = match _stored_results (self w) !! item with
    | Some a => (w, Return a)
    | None => create_stored_result_callback item w
    end.
Proof.
  unfold __getitem__. unfold_M. simpl. by destruct (_ !! item).
Qed.

Lemma slot_call_eq a value w :
  StoredResult_call a value w
  = match heap w !! a with
    | None => (w, Raise NoSuchObject)
    | Some r =>
        if _called r then
          (w, Raise (RuntimeError "stored result can store only one value"))
        else
          let w1 := mkWorld (self w)
                      (<[a := mkStoredResult (_parent r) (_key r) value true]> (heap w))
                      (trace w) in
          match _parent r with
          | None => (w1, Raise (TypeError "'NoneType' object is not callable"))
          | Some ThisBarrier =>
              match __call__ [value] [] w1 with
              | (w2, Return _) =>
                  (mkWorld (self w2) (alter (set_parent None) a (heap w2)) (trace w2),
                   Return tt)
              | (w2, Raise e) => (w2, Raise e)
              end
          end
    end.
Proof.
  destruct w as [b h t]. unfold StoredResult_call, deref, setslot.
  unfold_M. simpl. destruct (h !! a) as [r|] eqn:E; [|done].
  destruct (_called r) eqn:Ec; [done|]. simpl.
  rewrite list_alter_alter_eq, list_lookup_alter_eq, E. simpl.
  assert (alter (set_value value ∘ set_called true) a h
          = <[a := mkStoredResult (_parent r) (_key r) value true]> h) as ->.
  { apply list_eq. intros i. destruct (decide (i = a)) as [->|Hne].
    - rewrite list_lookup_alter_eq, E, list_lookup_insert_eq; [done|].
      by eapply lookup_lt_Some.
    - by rewrite list_lookup_alter_ne, list_lookup_insert_ne. }
  destruct (_parent r) as [[]|]; [|done].
  by destruct (__call__ _ _ _) as [w2 [[]|e]].
Qed.

Lemma slot_value_eq a w :
  StoredResult_value a w
  = match heap w !! a with
    | None => (w, Raise NoSuchObject)
    | Some r =>
        if _called r then (w, Return (_value r))
        else (w, Raise (AssertionError ("stored results key: " +:+ _key r)))
    end.
Proof.
  unfold StoredResult_value, deref. unfold_M.
  destruct (heap w !! a) as [r|]; [|done]. by destruct (_called r).
Qed.

Lemma get_result_eq key w :
  get_result key w
  = match _stored_results (self w) !! key with
    | Some a => StoredResult_value a w
    | None => (w, Raise (KeyError (repr key)))
    end.
Proof.
  unfold get_result. unfold_M. simpl. by destruct (_ !! key).
Qed.

Lemma bind_ret_fst {S A} (m : M S A) (x : S) : ((m ;; mret tt) x).1 = (m x).1.
Proof. unfold_M. by destruct (m x) as [x' [a|e]]. Qed.

(** ** What a call leaves alone *)

Lemma call_frame args kwargs w :
  heap (__call__ args kwargs w).1 = heap w
  /\ _stored_results (self (__call__ args kwargs w).1) = _stored_results (self w).
Proof.
  rewrite call_eq. destruct (_crossed (self w)); [done|]. simpl.
  destruct (_ && _)%bool; [|done]. by rewrite cross_barrier_eq.
Qed.

Lemma slot_value_fst a w : (StoredResult_value a w).1 = w.
Proof.
  rewrite slot_value_eq. destruct (heap w !! a) as [r|]; [|done].
  by destruct (_called r).
Qed.

Lemma get_result_fst key w : (get_result key w).1 = w.
Proof.
  rewrite get_result_eq. destruct (_ !! key); [|done]. apply slot_value_fst.
Qed.

(* A slot call does to the barrier what a call of the barrier does, or
   nothing. *)
Lemma slot_call_self a value w :
  self (StoredResult_call a value w).1 = self w
  \/ exists h, self (StoredResult_call a value w).1
              = self (__call__ [value] [] (mkWorld (self w) h (trace w))).1.
Proof.
  rewrite slot_call_eq. destruct (heap w !! a) as [r|]; [|by left].
  destruct (_called r); [by left|]. simpl.
  destruct (_parent r) as [[]|]; [|by left]. right.
  exists (<[a := mkStoredResult (Some ThisBarrier) (_key r) value true]> (heap w)).
  by destruct (__call__ _ _ _) as [w2 [[]|e]].
Qed.

(** ** The phases *)

Lemma cross_barrier_phase_ok w : phase_ok (self (_cross_barrier w).1).
Proof. rewrite cross_barrier_eq. by intros ?. Qed.

Lemma call_phase_ok args kwargs w :
  phase_ok (self w) -> phase_ok (self (__call__ args kwargs w).1).
Proof.
  intros Hw. rewrite call_eq. destruct (_crossed (self w)) eqn:Ec; [done|].
  simpl. destruct (_waiting_on_barrier (self w)) eqn:Ew; simpl.
  - destruct (_ =? 0) eqn:E0; [apply cross_barrier_phase_ok|].
    intros _. simpl. destruct Hw as [_ Hp]; [done|]. split; [done|]. lia.
  - intros Hw'. simpl in Hw'. congruence.
Qed.

Lemma increment_phase_ok n w :
  phase_ok (self w) -> phase_ok (self (increment n w).1).
Proof.
  intros Hw. rewrite increment_eq.
  destruct (_waiting_on_barrier (self w)) eqn:Ew; [done|].
  destruct (_crossed (self w)) eqn:Ec; [done|]. simpl.
  destruct (n <? 1); [done|]. intros Hw'. simpl in Hw'. congruence.
Qed.

Lemma wait_phase_ok w : phase_ok (self w) -> phase_ok (self (wait w).1).
Proof.
  intros Hw. rewrite wait_eq. destruct (_crossed (self w)) eqn:Ec; [done|].
  destruct (_waiting_on_barrier (self w)) eqn:Ew; [done|].
  destruct (_ <? 0) eqn:Eneg; [done|]. simpl.
  destruct (_ =? 0) eqn:E0; [apply cross_barrier_phase_ok|].
  intros _. simpl. split; [done|]. lia.
Qed.

Lemma create_phase_ok key w :
  phase_ok (self w) -> phase_ok (self (create_stored_result_callback key w).1).
Proof.
  intros Hw. rewrite create_eq. destruct (_ !! key); [done|]. simpl.
  destruct (_waiting_on_barrier (self w)) eqn:Ew; [done|].
  destruct (_crossed (self w)) eqn:Ec; [done|]. simpl.
  intros Hw'. simpl in Hw'. congruence.
Qed.

Lemma exec_phase_ok s w : phase_ok (self w) -> phase_ok (self (exec s w).1).
Proof.
  intros Hw. destruct s; simpl; rewrite ?bind_ret_fst.
  - rewrite register_eq. simpl.
    destruct (_crossed (self w)); [apply cross_barrier_phase_ok | done].
  - by apply create_phase_ok.
  - rewrite getitem_eq. destruct (_ !! item); [done|]. by apply create_phase_ok.
  - by rewrite get_result_fst.
  - by apply increment_phase_ok.
  - by apply wait_phase_ok.
  - by apply call_phase_ok.
  - destruct (slot_call_self a value w) as [->|[h ->]]; [done|].
    by apply call_phase_ok.
  - by rewrite slot_value_fst.
  - by apply wait_phase_ok.
Qed.

Lemma attempt_phase_ok l w : phase_ok (self w) -> phase_ok (self (attempt l w)).
Proof.
  revert w. induction l as [|s l IH]; intros w Hw; [done|].
  simpl. apply IH. by apply exec_phase_ok.
Qed.

Ltac phase := try done; intros [? ?]; simpl in *; split; congruence.

(* No statement brings a barrier back to editing. *)
Lemma exec_editing_back s w : editing (exec s w).1 -> editing w.
Proof.
  unfold editing. destruct s; simpl; rewrite ?bind_ret_fst.
  - rewrite register_eq. simpl. destruct (_crossed (self w)) eqn:Ec.
    + rewrite cross_barrier_eq. simpl. phase.
    + simpl. by rewrite Ec.
  - rewrite create_eq. destruct (_ !! key); [done|]. simpl.
    destruct (_waiting_on_barrier (self w)) eqn:Ew, (_crossed (self w)) eqn:Ec;
      simpl; rewrite ?Ew, ?Ec; phase.
  - rewrite getitem_eq. destruct (_ !! item); [done|].
    rewrite create_eq. destruct (_ !! item); [done|]. simpl.
    destruct (_waiting_on_barrier (self w)) eqn:Ew, (_crossed (self w)) eqn:Ec;
      simpl; rewrite ?Ew, ?Ec; phase.
  - by rewrite get_result_fst.
  - rewrite increment_eq.
    destruct (_waiting_on_barrier (self w)) eqn:Ew,
             (_crossed (self w)) eqn:Ec; simpl; try phase.
  - rewrite wait_eq.
    destruct (_crossed (self w)) eqn:Ec; [phase|].
    destruct (_waiting_on_barrier (self w)) eqn:Ew; [phase|]. done.
  - rewrite call_eq.
    destruct (_crossed (self w)) eqn:Ec; [phase|].
    destruct (_waiting_on_barrier (self w)) eqn:Ew; [|done]. simpl.
    destruct (_ =? 0); [rewrite cross_barrier_eq|]; simpl; phase.
  - destruct (slot_call_self a value w) as [->|[h ->]]; [done|].
    rewrite call_eq. simpl.
    destruct (_crossed (self w)) eqn:Ec; [phase|].
    destruct (_waiting_on_barrier (self w)) eqn:Ew; [|done]. simpl.
    destruct (_ =? 0); [rewrite cross_barrier_eq|]; simpl; phase.
  - by rewrite slot_value_fst.
  - unfold __exit__. rewrite wait_eq.
    destruct (_crossed (self w)) eqn:Ec; [phase|].
    destruct (_waiting_on_barrier (self w)) eqn:Ew; [phase|]. done.
Qed.

Lemma attempt_editing_back l w : editing (attempt l w) -> editing w.
Proof.
  revert w. induction l as [|s l IH]; intros w Hw; [done|].
  simpl in Hw. by eapply exec_editing_back, IH.
Qed.

(* The count of an editing barrier after increments, waits and calls. *)
Lemma attempt_editing_pending l w :
  Forall (fun s => is_core s = true) l ->
  editing (attempt l w) ->
  _calls_pending (self (attempt l w))
  = _calls_pending (self w) + incremented l - invocations l.
Proof.
  revert w. induction l as [|s l IH]; intros w Hl Hed; simpl; [lia|].
  inversion Hl as [|? ? Hs Hl']; subst. simpl in Hed.
  pose proof (attempt_editing_back _ _ Hed) as Hed1.
  pose proof (exec_editing_back _ _ Hed1) as [Ew Ec].
  rewrite (IH _ Hl' Hed). destruct s; try done; simpl.
  - rewrite increment_eq, Ew, Ec. simpl.
    destruct (Z.ltb_spec n 1), (Z.leb_spec 1 n); simpl; lia.
  - destruct Hed1 as [Ew1 Ec1]. simpl in Ew1, Ec1. revert Ew1 Ec1.
    rewrite wait_eq, Ec, Ew. destruct (_ <? 0); [simpl; lia|]. simpl.
    destruct (_ =? 0); [by rewrite cross_barrier_eq|done].
  - rewrite call_eq, Ec, Ew. simpl. lia.
Qed.

(** ** Scripts *)

Lemma script_cons s l w :
  script (s :: l) w
  = match exec s w with
    | (w', Return _) => script l w'
    | (w', Raise e) => (w', Raise e)
    end.
Proof. unfold script. simpl. unfold_M. by destruct (exec s w) as [w' [[]|e]]. Qed.

Lemma script_app l1 l2 w :
  script (l1 ++ l2) w
  = match script l1 w with
    | (w', Return _) => script l2 w'
    | (w', Raise e) => (w', Raise e)
    end.
Proof.
  revert w. induction l1 as [|s l1 IH]; intros w; [done|].
  rewrite <- app_comm_cons, !script_cons.
  destruct (exec s w) as [w' [[]|e]]; [apply IH | done].
Qed.

(* An editing barrier takes registrations, increments and calls without
   raising and without calling anything. *)
Lemma editing_script pre w :
  Forall (fun s => is_editing_stmt s = true) pre ->
  editing w ->
  script pre w
  = (mkWorld
       (mkCallbackBarrier false false
          (_calls_pending (self w) + incremented pre - invocations pre)
          (_stored_results (self w))
          (_to_execute_after_barrier (self w) ++ registered pre))
       (heap w) (trace w),
     Return tt).
Proof.
  revert w. induction pre as [|s pre IH]; intros [[wt cr p sr te] h t] Hpre [Ew Ec];
    simpl in Ew, Ec; subst wt cr.
  - simpl. unfold script. simpl. unfold_M. rewrite app_nil_r.
    do 3 f_equal. lia.
  - inversion Hpre as [|? ? Hs Hpre']; subst. rewrite script_cons.
    destruct s; try done; cbn [exec].
    + rewrite register_eq. simpl. rewrite IH; [|done|done]. simpl.
      by rewrite <- app_assoc.
    + apply bool_decide_eq_true in Hs. rewrite increment_eq. simpl.
      destruct (Z.ltb_spec n 1); [lia|]. rewrite IH; [|done|done]. simpl.
      destruct (Z.leb_spec 1 n); [|lia]. do 3 f_equal. lia.
    + rewrite call_eq. simpl. rewrite IH; [|done|done]. simpl.
      do 3 f_equal. lia.
Qed.

Lemma invocations_nonneg l : 0 <= invocations l.
Proof. induction l as [|[] ? ?]; simpl; lia. Qed.

Lemma invocations_app l1 l2 :
  invocations (l1 ++ l2) = invocations l1 + invocations l2.
Proof. induction l1 as [|[] ? ?]; simpl; lia. Qed.

(* A waiting barrier that expects more calls than it gets goes on waiting. *)
Lemma waiting_script post w :
  Forall (fun s => is_call s = true) post ->
  waiting w ->
  invocations post < _calls_pending (self w) ->
  script post w
  = (mkWorld
       (set_calls_pending (_calls_pending (self w) - invocations post) (self w))
       (heap w) (trace w),
     Return tt).
Proof.
  revert w. induction post as [|s post IH]; intros [[wt cr p sr te] h t] Hpost [Ew Ec];
    simpl in Ew, Ec; subst wt cr; simpl; intros Hlt.
  - unfold script. simpl. unfold_M. unfold set_calls_pending. simpl.
    do 3 f_equal. lia.
  - inversion Hpost as [|? ? Hs Hpost']; subst. rewrite script_cons.
    destruct s; try done. simpl in Hlt. cbn [exec].
    pose proof (invocations_nonneg post).
    rewrite call_eq. simpl. destruct (Z.eqb_spec (p - 1) 0); [lia|].
    rewrite IH; [|done|done|simpl; lia]. simpl. unfold set_calls_pending. simpl.
    do 3 f_equal. lia.
Qed.

Lemma script_nil w : script [] w = (w, Return tt).
Proof. done. Qed.

Lemma editing_init : editing (__init__ : World).
Proof. done. Qed.

(* Waited on with calls still missing, the barrier waits. *)
Lemma wait_then_calls pre post :
  Forall (fun s => is_editing_stmt s = true) pre ->
  Forall (fun s => is_call s = true) post ->
  invocations pre + invocations post < incremented pre ->
  script (pre ++ DoWait :: post) __init__
  = (waiting_world (incremented pre - invocations pre - invocations post)
       (registered pre),
     Return tt).
Proof.
  intros Hpre Hpost Hlt. pose proof (invocations_nonneg post).
  rewrite script_app, (editing_script pre _ Hpre editing_init). simpl.
  rewrite script_cons. cbn [exec]. rewrite wait_eq. simpl.
  destruct (Z.ltb_spec (0 + incremented pre - invocations pre) 0); [lia|].
  destruct (Z.eqb_spec (0 + incremented pre - invocations pre) 0); [lia|].
  rewrite waiting_script; [|done|done|simpl; lia].
  unfold waiting_world, set_calls_pending. simpl. repeat f_equal; lia.
Qed.

(* Waited on with every call made, the barrier crosses at once. *)
Lemma wait_after_calls pre :
  Forall (fun s => is_editing_stmt s = true) pre ->
  Forall (fun c => raises c.1 = None) (registered pre) ->
  invocations pre = incremented pre ->
  script (pre ++ [DoWait]) __init__ = (crossed_world (registered pre), Return tt).
Proof.
  intros Hpre Hret Heq.
  rewrite script_app, (editing_script pre _ Hpre editing_init). simpl.
  rewrite script_cons. cbn [exec]. rewrite wait_eq. simpl.
  destruct (Z.ltb_spec (0 + incremented pre - invocations pre) 0); [lia|].
  destruct (Z.eqb_spec (0 + incremented pre - invocations pre) 0) as [E0|]; [|lia].
  rewrite cross_barrier_eq. simpl.
  destruct (called_of_returning _ Hret) as [-> ->]. by rewrite script_nil, E0.
Qed.

(* The call that a waiting barrier still misses makes it cross. *)
Lemma last_call_crosses (args : list (option Any)) kwargs
    (cs : list (Callable * bool)) :
  Forall (fun c => raises c.1 = None) cs ->
  script [DoCall args kwargs] (waiting_world 1 cs)
  = (crossed_world cs, Return tt).
Proof.
  intros Hret. rewrite script_cons. cbn [exec]. rewrite call_eq. simpl.
  rewrite cross_barrier_eq. simpl.
  by destruct (called_of_returning _ Hret) as [-> ->].
Qed.

Lemma only_calls_snoc post :
  Forall (fun s => is_call s = true) post ->
  post = [] \/
  exists post' args kwargs,
    post = post' ++ [DoCall args kwargs]
    /\ Forall (fun s => is_call s = true) post'
    /\ invocations post = invocations post' + 1.
Proof.
  intros Hpost. destruct post as [|s post] using rev_ind; [by left|]. right.
  apply Forall_app in Hpost as [Hpost Hs]. inversion Hs as [|? ? Hc _]; subst.
  destruct s; try done. exists post, args, kwargs.
  rewrite invocations_app. simpl. split_and!; [done|done|lia].
Qed.

(** C1.  A new barrier takes registrations, increments that add up to [n]
    and calls, in any order; it is then waited on and called until it has been
    called [n] times in all.  The continuations are such that return when
    they are called.  Then no statement raises, the barrier ends up crossed
    with a count of zero, [_cross_barrier] ran exactly once and called each
    registered continuation exactly once, in the order of registration; and
    nothing was called before the last statement: [wait()] when all [n] calls
    came before it, the [n]-th call otherwise.  This holds for every [n],
    so for every [n >= 1]. *)
Theorem barrier_crosses_exactly_once pre post n :
  Forall (fun s => is_editing_stmt s = true) pre ->
  Forall (fun s => is_call s = true) post ->
  Forall (fun c => raises c.1 = None) (registered pre) ->
  incremented pre = n ->
  invocations pre + invocations post = n ->
  script (pre ++ DoWait :: post) __init__
  = (crossed_world (registered pre), Return tt)
  /\ forall front last,
       pre ++ DoWait :: post = front ++ [last] ->
       exists w, script front __init__ = (w, Return tt)
                 /\ _crossed (self w) = false /\ trace w = [].
Proof.
  intros Hpre Hpost Hret Hinc Hinv. subst n.
  destruct (only_calls_snoc post Hpost)
    as [->|(post' & args & kwargs & -> & Hpost' & Hsnoc)].
  - simpl in Hinv. split.
    + apply wait_after_calls; [done|done|lia].
    + intros front last Heq. apply app_inj_tail in Heq as [<- <-].
      rewrite (editing_script pre _ Hpre editing_init). by eexists.
  - assert (Hlt : invocations pre + invocations post' < incremented pre) by lia.
    pose proof (wait_then_calls pre post' Hpre Hpost' Hlt) as Hfront.
    replace (incremented pre - invocations pre - invocations post') with 1
      in Hfront by lia.
    replace (pre ++ DoWait :: post' ++ [DoCall args kwargs])
      with ((pre ++ DoWait :: post') ++ [DoCall args kwargs])
      by (by rewrite <- app_assoc).
    split.
    + rewrite script_app, Hfront. by apply last_call_crosses.
    + intros front last Heq. apply app_inj_tail in Heq as [<- <-].
      rewrite Hfront. by eexists.
Qed.

(** C3, as amended.  Whatever was done to a barrier, and whether or not the
    calls raised: while it waits, its count is at least one, so not negative.
    While it is still edited, the count after increments, waits and calls is
    the total of the accepted increments minus the number of calls, which is
    negative when the barrier was called more often than incremented; and
    [wait()] on an edited barrier with a negative count raises and leaves
    the barrier as it is. *)
Theorem pending_count_of_reachable_barrier l w :
  w = attempt l __init__ ->
  (waiting w -> 1 <= _calls_pending (self w))
  /\ (Forall (fun s => is_core s = true) l -> editing w ->
      _calls_pending (self w) = incremented l - invocations l)
  /\ (editing w -> _calls_pending (self w) < 0 ->
      wait w
      = (w, Raise (RuntimeError "barrier already called more times than expected"))).
Proof.
  intros ->. split_and!.
  - intros [Hw _]. by apply (attempt_phase_ok l __init__).
  - intros Hl Hed. by rewrite attempt_editing_pending.
  - intros [Hw Hc] Hneg. rewrite wait_eq, Hw, Hc.
    by destruct (Z.ltb_spec (_calls_pending (self (attempt l __init__))) 0); [|lia].
Qed.

(** ** Slots *)

(* What a slot call does to the heap: nothing, or it fills the slot. *)
Lemma slot_call_heap a value w :
  match heap w !! a with
  | Some r =>
      if _called r then heap (StoredResult_call a value w).1 = heap w
      else exists p,
          heap (StoredResult_call a value w).1
          = <[a := mkStoredResult p (_key r) value true]> (heap w)
  | None => heap (StoredResult_call a value w).1 = heap w
  end.
Proof.
  rewrite slot_call_eq. destruct (heap w !! a) as [r|] eqn:E; [|done].
  destruct (_called r); [done|]. simpl.
  destruct (_parent r) as [[]|]; [|by eexists].
  pose proof (call_frame [value] []
    (mkWorld (self w)
       (<[a := mkStoredResult (Some ThisBarrier) (_key r) value true]> (heap w))
       (trace w))) as [Hh _].
  destruct (__call__ _ _ _) as [w2 [[]|e]]; simpl in *; [|by eexists].
  exists None. rewrite Hh. apply list_eq. intros i.
  destruct (decide (i = a)) as [->|Hne].
  - rewrite list_lookup_alter_eq, !list_lookup_insert_eq;
      [done | by eapply lookup_lt_Some | by eapply lookup_lt_Some].
  - by rewrite list_lookup_alter_ne, !list_lookup_insert_ne.
Qed.

(* A statement leaves the heap as it is, puts a new slot at its end, or is
   the first call of a slot. *)
Lemma exec_heap s w :
  heap (exec s w).1 = heap w
  \/ (exists key, heap (exec s w).1 = heap w ++ [StoredResult_init ThisBarrier key])
  \/ (exists a value r p,
        s = DoSlotCall a value /\ heap w !! a = Some r /\ _called r = false
        /\ heap (exec s w).1 = <[a := mkStoredResult p (_key r) value true]> (heap w)).
Proof.
  destruct s; cbn [exec]; rewrite ?bind_ret_fst.
  - left. rewrite register_eq. simpl.
    destruct (_crossed (self w)); [by rewrite cross_barrier_eq | done].
  - rewrite create_eq. destruct (_ !! key); [by left|]. simpl.
    right; left. exists key. by destruct (_ || _)%bool.
  - rewrite getitem_eq. destruct (_ !! item); [by left|].
    rewrite create_eq. destruct (_ !! item); [by left|]. simpl.
    right; left. exists item. by destruct (_ || _)%bool.
  - left. by rewrite get_result_fst.
  - left. rewrite increment_eq. destruct (_ || _)%bool; [done|].
    by destruct (n <? 1).
  - left. rewrite wait_eq. destruct (_crossed (self w)); [done|].
    destruct (_waiting_on_barrier (self w)); [done|].
    destruct (_ <? 0); [done|]. simpl.
    destruct (_ =? 0); [by rewrite cross_barrier_eq | done].
  - left. apply call_frame.
  - pose proof (slot_call_heap a value w) as Hh.
    destruct (heap w !! a) as [r|] eqn:E; [|by left].
    destruct (_called r) eqn:Ec; [by left|]. destruct Hh as [p Hp].
    right; right. by exists a, value, r, p.
  - left. by rewrite slot_value_fst.
  - left. unfold __exit__. rewrite wait_eq. destruct (_crossed (self w)); [done|].
    destruct (_waiting_on_barrier (self w)); [done|].
    destruct (_ <? 0); [done|]. simpl.
    destruct (_ =? 0); [by rewrite cross_barrier_eq | done].
Qed.

(* A value that was delivered stays. *)
Lemma exec_delivered s w a value :
  delivered w a value -> delivered (exec s w).1 a value.
Proof.
  intros (r & Hr & Hc & Hv). unfold delivered.
  destruct (exec_heap s w) as [->|[[key ->]|(a' & v' & r' & p & -> & Hr' & Hc' & ->)]].
  - by exists r.
  - exists r. by rewrite lookup_app_l by (by eapply lookup_lt_Some).
  - exists r. rewrite list_lookup_insert_ne; [done|]. intros ->. congruence.
Qed.

Lemma attempt_delivered l w a value :
  delivered w a value -> delivered (attempt l w) a value.
Proof.
  revert w. induction l as [|s l IH]; intros w Hw; [done|].
  simpl. by apply IH, exec_delivered.
Qed.

(* A slot that was not called stays as it is until it is called. *)
Lemma exec_not_called s w a r :
  heap w !! a = Some r -> _called r = false ->
  (forall value, s <> DoSlotCall a value) ->
  heap (exec s w).1 !! a = Some r.
Proof.
  intros Hr Hc Hs.
  destruct (exec_heap s w) as [->|[[key ->]|(a' & v' & r' & p & -> & Hr' & Hc' & ->)]].
  - done.
  - by rewrite lookup_app_l by (by eapply lookup_lt_Some).
  - rewrite list_lookup_insert_ne; [done|]. intros ->. by apply (Hs v').
Qed.

Lemma attempt_not_called l w a r :
  heap w !! a = Some r -> _called r = false ->
  Forall (fun s => forall value, s <> DoSlotCall a value) l ->
  heap (attempt l w) !! a = Some r.
Proof.
  revert w. induction l as [|s l IH]; intros w Hr Hc Hl; [done|].
  inversion Hl; subst. simpl. apply IH; [|done|done]. by apply exec_not_called.
Qed.

(* The mapping from keys to slots only grows. *)
Lemma exec_stored s w key a :
  _stored_results (self w) !! key = Some a ->
  _stored_results (self (exec s w).1) !! key = Some a.
Proof.
  intros Hk. destruct s; cbn [exec]; rewrite ?bind_ret_fst.
  - rewrite register_eq. simpl.
    destruct (_crossed (self w)); [by rewrite cross_barrier_eq | done].
  - rewrite create_eq. destruct (_ !! key0) eqn:E; [done|]. simpl.
    destruct (_ || _)%bool; [done|]. simpl.
    rewrite lookup_insert_ne; [done|]. intros ->. congruence.
  - rewrite getitem_eq. destruct (_ !! item) eqn:E; [done|].
    rewrite create_eq, E. simpl.
    destruct (_ || _)%bool; [done|]. simpl.
    rewrite lookup_insert_ne; [done|]. intros ->. congruence.
  - by rewrite get_result_fst.
  - rewrite increment_eq. destruct (_ || _)%bool; [done|].
    by destruct (n <? 1).
  - rewrite wait_eq. destruct (_crossed (self w)); [done|].
    destruct (_waiting_on_barrier (self w)); [done|].
    destruct (_ <? 0); [done|]. simpl.
    destruct (_ =? 0); [by rewrite cross_barrier_eq | done].
  - by rewrite (proj2 (call_frame args kwargs w)).
  - destruct (slot_call_self a0 value w) as [->|[h ->]]; [done|].
    by rewrite (proj2 (call_frame _ _ _)).
  - by rewrite slot_value_fst.
  - unfold __exit__. rewrite wait_eq. destruct (_crossed (self w)); [done|].
    destruct (_waiting_on_barrier (self w)); [done|].
    destruct (_ <? 0); [done|]. simpl.
    destruct (_ =? 0); [by rewrite cross_barrier_eq | done].
Qed.

Lemma attempt_stored l w key a :
  _stored_results (self w) !! key = Some a ->
  _stored_results (self (attempt l w)) !! key = Some a.
Proof.
  revert w. induction l as [|s l IH]; intros w Hw; [done|].
  simpl. by apply IH, exec_stored.
Qed.

(* Reading a delivered value, and calling the slot again. *)
Lemma delivered_value w a value :
  delivered w a value -> StoredResult_value a w = (w, Return value).
Proof. intros (r & Hr & Hc & Hv). by rewrite slot_value_eq, Hr, Hc, Hv. Qed.

Lemma delivered_call_again w a value value' :
  delivered w a value ->
  StoredResult_call a value' w
  = (w, Raise (RuntimeError "stored result can store only one value")).
Proof. intros (r & Hr & Hc & Hv). by rewrite slot_call_eq, Hr, Hc. Qed.

(** C4.  A slot is created for [key]; the client goes on as it likes, short
    of calling the slot; the slot is called with [value]; the client goes on
    as it likes.  Then reading the slot, directly or with [get_result(key)],
    returns exactly [value], and a second call of the slot raises
    'stored result can store only one value' and changes nothing. *)
Theorem stored_result_keeps_value w key a w1 mid value later :
  create_stored_result_callback key w = (w1, Return a) ->
  Forall (fun s => forall v, s <> DoSlotCall a v) mid ->
  let w2 := (StoredResult_call a value (attempt mid w1)).1 in
  let w3 := attempt later w2 in
  StoredResult_value a w3 = (w3, Return value)
  /\ get_result key w3 = (w3, Return value)
  /\ forall value',
       StoredResult_call a value' w3
       = (w3, Raise (RuntimeError "stored result can store only one value")).
Proof.
  intros Hcreate Hmid w2 w3. rewrite create_eq in Hcreate.
  destruct (_stored_results (self w) !! key) eqn:Ekey; [done|]. simpl in Hcreate.
  destruct (_ || _)%bool; [done|]. injection Hcreate as <- <-.
  set (w1 := mkWorld _ _ _) in *. set (a := length (heap w)) in *.
  assert (Hslot : heap w1 !! a = Some (StoredResult_init ThisBarrier key)).
  { simpl. by rewrite list_lookup_middle. }
  assert (Hkey : _stored_results (self w1) !! key = Some a).
  { simpl. by rewrite lookup_insert_eq. }
  pose proof (attempt_not_called mid w1 a _ Hslot eq_refl Hmid) as Hslot'.
  pose proof (attempt_stored mid w1 key a Hkey) as Hkey'.
  assert (Hdel : delivered w2 a value).
  { pose proof (slot_call_heap a value (attempt mid w1)) as Hh.
    rewrite Hslot' in Hh. simpl in Hh. destruct Hh as [p Hp].
    eexists. subst w2. rewrite Hp, list_lookup_insert_eq; [done|].
    by eapply lookup_lt_Some. }
  assert (Hkey2 : _stored_results (self w2) !! key = Some a).
  { by apply (exec_stored (DoSlotCall a value)). }
  pose proof (attempt_delivered later w2 a value Hdel) as Hdel3.
  pose proof (attempt_stored later w2 key a Hkey2) as Hkey3.
  fold w3 in Hdel3, Hkey3. split_and!.
  - by apply delivered_value.
  - rewrite get_result_eq, Hkey3. by apply delivered_value.
  - intros value'. by eapply delivered_call_again.
Qed.

(** C8.  The first call of a slot whose barrier has crossed raises
    'unexpected call after crossing barrier', and yet the slot is changed:
    it is marked as called and holds the value, so that reading it returns
    the value and a second call raises 'stored result can store only one
    value'; its [_parent] still is the barrier, and the barrier itself is as
    it was. *)
Theorem slot_call_on_crossed_barrier w a r value :
  crossed w ->
  heap w !! a = Some r ->
  _called r = false ->
  _parent r = Some ThisBarrier ->
  let r' := mkStoredResult (Some ThisBarrier) (_key r) value true in
  let w' := mkWorld (self w) (<[a := r']> (heap w)) (trace w) in
  StoredResult_call a value w
  = (w', Raise (RuntimeError "unexpected call after crossing barrier"))
  /\ heap w' !! a = Some r'
  /\ StoredResult_value a w' = (w', Return value)
  /\ forall value',
       StoredResult_call a value' w'
       = (w', Raise (RuntimeError "stored result can store only one value")).
Proof.
  intros Hcr Hr Hc Hp r' w'.
  assert (Hr' : heap w' !! a = Some r').
  { simpl. rewrite list_lookup_insert_eq; [done|]. by eapply lookup_lt_Some. }
  assert (Hdel : delivered w' a value) by (by exists r').
  split_and!.
  - rewrite slot_call_eq, Hr, Hc, Hp. simpl. rewrite call_eq. simpl.
    unfold crossed in Hcr. by rewrite Hcr.
  - done.
  - by apply delivered_value.
  - intros value'. by eapply delivered_call_again.
Qed.

(** C9.  The first [barrier[item]] that returns puts a new slot for [item]
    at the end of the heap and adds one to the count.  From then on, whatever
    else the client does in between, [barrier[item]] returns that same slot
    and leaves the barrier, its count included, exactly as it was. *)
Theorem getitem_creates_once w item w1 a :
  _stored_results (self w) !! item = None ->
  __getitem__ item w = (w1, Return a) ->
  (a = length (heap w)
   /\ heap w1 = heap w ++ [StoredResult_init ThisBarrier item]
   /\ _stored_results (self w1) = <[item := a]> (_stored_results (self w))
   /\ _calls_pending (self w1) = _calls_pending (self w) + 1)
  /\ forall mid,
       let w2 := attempt mid w1 in __getitem__ item w2 = (w2, Return a).
Proof.
  intros Hnone Hget. rewrite getitem_eq, Hnone, create_eq, Hnone in Hget.
  simpl in Hget. destruct (_ || _)%bool; [done|]. injection Hget as <- <-.
  split; [done|]. intros mid w2. subst w2.
  rewrite getitem_eq.
  rewrite (attempt_stored mid _ item (length (heap w))); [done|].
  simpl. by rewrite lookup_insert_eq.
Qed.

(** C10.  A call of the barrier does not look at its arguments: with other
    arguments it does the same and leaves the same state.  It never touches
    the slots or the mapping from keys to slots.  On a crossed barrier it
    raises and changes nothing.  Otherwise the count is one less; the call
    that brings a waiting barrier to zero goes on as [_cross_barrier] does,
    and any other call returns with nothing else changed. *)
Theorem barrier_call_discards_arguments w
    (args args' : list (option Any)) (kwargs kwargs' : list (string * option Any)) :
  __call__ args kwargs w = __call__ args' kwargs' w
  /\ heap (__call__ args kwargs w).1 = heap w
  /\ _stored_results (self (__call__ args kwargs w).1) = _stored_results (self w)
  /\ (if _crossed (self w) then
        __call__ args kwargs w
        = (w, Raise (RuntimeError "unexpected call after crossing barrier"))
      else
        _calls_pending (self (__call__ args kwargs w).1)
        = _calls_pending (self w) - 1
        /\ (if (_waiting_on_barrier (self w) && (_calls_pending (self w) =? 1))%bool
            then __call__ args kwargs w
                 = _cross_barrier
                     (mkWorld (set_calls_pending 0 (self w)) (heap w) (trace w))
            else __call__ args kwargs w
                 = (mkWorld (set_calls_pending (_calls_pending (self w) - 1) (self w))
                      (heap w) (trace w),
                    Return tt))).
Proof.
  split; [by rewrite !call_eq|]. split; [apply call_frame|].
  split; [apply call_frame|]. rewrite call_eq.
  destruct (_crossed (self w)); [done|]. simpl.
  destruct (_waiting_on_barrier (self w)); simpl; [|done].
  destruct (Z.eqb_spec (_calls_pending (self w) - 1) 0) as [E|E],
           (Z.eqb_spec (_calls_pending (self w)) 1) as [E1|E1]; try lia.
  - rewrite E. by rewrite cross_barrier_eq.
  - done.
Qed.

End facts.

End BarrierFacts.

(* ------------------------------------------------------------------------- *)
(** * Facts about CallbackBlocker *)
(* ------------------------------------------------------------------------- *)

Module BlockerFacts.

Import Blocker.

#[local] Open Scope Z_scope.

Section facts.

Context {Any : Type}.

Abbreviation CallbackBlocker := (@CallbackBlocker Any).

Implicit Types (b : CallbackBlocker) (events : list (@loop_event Any)).

Lemma blocker_call_eq args kwargs b :
  __call__ args kwargs b
  = if called b then
      (b, Raise (CallbackCalledTwiceError "Callback called twice"))
    else (completed args kwargs b, Return tt).
Proof.
  destruct b as [t a m k c lp [tm|]]; unfold __call__, try_finally, _cleanup;
    unfold mbind, mret, M_bind, M_ret, raise, getattr, setattr; simpl;
    by destruct c.
Qed.

Lemma quit_loop_by_timeout_eq b :
  _quit_loop_by_timeout b = (set_loop false (set_timer None b), Return tt).
Proof.
  by destruct b as [t a m k c lp [tm|]].
Qed.

(* The loop is left by an exception only when a callback comes a second
   time. *)
Lemma run_loop_raises events b b' e :
  run_loop events b = Some (b', Raise e) ->
  e = CallbackCalledTwiceError "Callback called twice".
Proof.
  revert b. induction events as [|ev events IH]; intros b; simpl; [done|].
  destruct (dispatch ev b) as [b1 [[]|e1]] eqn:Ed.
  - destruct (_loop b1); [apply IH | done].
  - intros ?. simplify_eq. destruct ev as [args kwargs|]; simpl in Ed.
    + rewrite blocker_call_eq in Ed. by destruct (called b); simplify_eq.
    + unfold mbind, M_bind, getattr in Ed. simpl in Ed.
      destruct (_timer b) as [tm|]; [|done].
      destruct (_ && _)%bool; [by rewrite quit_loop_by_timeout_eq in Ed | done].
Qed.

(* When the loop is left in the ordinary way, it has been quit. *)
Lemma run_loop_returns events b b' :
  run_loop events b = Some (b', Return tt) -> _loop b' = false.
Proof.
  revert b. induction events as [|ev events IH]; intros b; simpl; [done|].
  destruct (dispatch ev b) as [b1 [[]|e1]]; [|done].
  destruct (_loop b1) eqn:El; [apply IH | by intros [= <-]].
Qed.

(** C2.  A new blocker, with any timeout and message, used in a [with]
    statement.  Called once in the body, or called once while [__exit__]
    waits: the statement returns without raising, with the arguments kept.
    Never called, with a timeout of [t] milliseconds: nothing is raised as
    long as the loop gets no event, and when the timer expires the statement
    raises [TimeoutError] with the message "Callback wasn't called after
    [t]ms.", followed by the message of the blocker if it has one.  A call
    of a blocker that was called already raises [CallbackCalledTwiceError]
    and changes nothing. *)
Theorem blocker_scope_outcomes (timeout : option Z) (t : Z) (m : option string)
    (args args' : list Any) (kwargs kwargs' : list (string * Any)) events :
  let done_ := completed args kwargs (__init__ timeout m) in
  with_ (__call__ args kwargs) events (__init__ timeout m) = Some (done_, Return tt)
  /\ with_ (mret tt) (CallbackFired args kwargs :: events) (__init__ timeout m)
     = Some (done_, Return tt)
  /\ with_ (mret tt) [] (__init__ (Some t) m : CallbackBlocker) = None
  /\ with_ (mret tt) (TimerExpired :: events) (__init__ (Some t) m)
     = Some (timed_out (__init__ (Some t) m),
             Raise (TimeoutError
                      (match m with
                       | Some (String c m') =>
                           ("Callback wasn't called after " +:+ pretty t +:+ "ms.")
                           +:+ newline +:+ "> " +:+ String c m'
                       | _ => "Callback wasn't called after " +:+ pretty t +:+ "ms."
                       end)))
  /\ __call__ args' kwargs' done_
     = (done_, Raise (CallbackCalledTwiceError "Callback called twice")).
Proof.
  split_and!.
  - by destruct timeout.
  - by destruct timeout.
  - done.
  - done.
  - by rewrite blocker_call_eq.
Qed.

(** C5.  When [wait()] has raised [TimeoutError], the blocker has not been
    called and its loop does not run.  The first call that comes after that
    returns without raising, and it is not discarded: the blocker is marked
    as called and keeps the arguments of the call in [args] and [kwargs].
    No loop runs that the call could end, so no [wait()] in progress gets
    it; a [wait()] that comes later returns at once, whatever the events;
    and a call after that one raises [CallbackCalledTwiceError] and leaves
    the blocker as it is. *)
Theorem late_call_after_timeout_is_kept b events b1 text events'
    (args args' : list Any) (kwargs kwargs' : list (string * Any)) :
  wait events b = Some (b1, Raise (TimeoutError text)) ->
  let b2 := completed args kwargs b1 in
  called b1 = false
  /\ _loop b1 = false
  /\ __call__ args kwargs b1 = (b2, Return tt)
  /\ (called b2 = true /\ Blocker.args b2 = Some args
      /\ Blocker.kwargs b2 = Some kwargs /\ _loop b2 = false)
  /\ wait events' b2 = Some (b2, Return tt)
  /\ __call__ args' kwargs' b2
     = (b2, Raise (CallbackCalledTwiceError "Callback called twice")).
Proof.
  unfold wait, exec_. destruct (called b); [done|].
  destruct (run_loop _ _) as [[b3 [[]|e]]|] eqn:Eloop; [| |done].
  - destruct (called b3) eqn:Ec; [done|]. intros ?. simplify_eq.
    split_and!; try done.
    + by eapply run_loop_returns.
    + by rewrite blocker_call_eq, Ec.
  - intros ?. simplify_eq. by apply run_loop_raises in Eloop.
Qed.

End facts.

End BlockerFacts.

(* ------------------------------------------------------------------------- *)
(** * Leaving the scope of a blocker and of a barrier *)
(* ------------------------------------------------------------------------- *)

Module ScopeFacts.

Section facts.

Context {Key : Type} `{KeyCountable : Countable Key} `{KeyRepr : Repr Key}.
Context {Any Callable : Type} `{CallableBehaviour : Behaviour Callable}.

Abbreviation World := (@Barrier.World Key _ _ Any Callable).
Abbreviation CallbackBlocker := (@Blocker.CallbackBlocker Any).

(** C7.  [CallbackBlocker.__exit__] waits when no exception left the body
    and does nothing at all when one did: it returns at once with the
    blocker as it was, whatever the loop would have brought, so that the
    [with] statement waits after a body that returned and passes the
    exception of a body that raised on without waiting.
    [CallbackBarrier.__exit__] is [wait()] whether or not an exception left
    the body: the [with] statement runs [wait()] on the barrier as the body
    left it in both cases, and passes the exception of the body on unless
    [wait()] itself raises. *)
Theorem exit_waits_blocker_conditionally_barrier_always
    (b : CallbackBlocker) (events : list (@Blocker.loop_event Any))
    (body : M CallbackBlocker unit) (w : World) (value : option exn)
    (barrier_body : M World unit) (e : exn) :
  Blocker.__exit__ None events b = Blocker.wait events b
  /\ Blocker.__exit__ (Some e) events b = Some (b, Return tt)
  /\ Blocker.with_ body events b
     = match body b with
       | (b1, Return _) => Blocker.wait events b1
       | (b1, Raise e') => Some (b1, Raise e')
       end
  /\ Barrier.__exit__ value w = Barrier.wait w
  /\ Barrier.with_ barrier_body w
     = match barrier_body w with
       | (w1, Return _) => Barrier.wait w1
       | (w1, Raise e') =>
           match Barrier.wait w1 with
           | (w2, Return _) => (w2, Raise e')
           | (w2, Raise e'') => (w2, Raise e'')
           end
       end.
Proof.
  split_and!; reflexivity.
Qed.

End facts.

End ScopeFacts.

(* ------------------------------------------------------------------------- *)
(** * Facts about the debug guard *)
(* ------------------------------------------------------------------------- *)

Module ApiFacts.

Import Api.

Section facts.

Context {Arg Callback : Type}.
Variable prepare_js_call : string -> list Arg -> string.
Variable _web_view : WebView.

(** C6.  With the widget of this repository a call in debug mode makes no
    check at all.  [QmxGraph.is_loaded] takes no callback, so
    [graph.is_loaded(check_is_loaded)] raises [TypeError] at once: no
    request is made, whatever the state of the graph and whether or not the
    function exists, and the callback is not handed back.  The two closures
    are as the claim has them, for whoever would call them:
    [check_is_loaded] raises [InvalidJavaScriptError] 'Because graph is
    unloaded ...' for a false answer and asks for the function otherwise;
    [check_function_exist] raises [InvalidJavaScriptError] with the name of
    the function for a false answer and otherwise makes the very request of
    a call without debug mode. *)
Theorem debug_call_raises_before_any_check (result_callback : Callback)
    (fn : string) (args : list Arg) (q : list request) (v : bool) :
  let probe := "(typeof api !== 'undefined') && !!api." +:+ fn in
  let check_exists := EvalJs (CheckFunctionExist result_callback fn args) probe in
  (exists text,
     call_api prepare_js_call _web_view true result_callback fn args q
     = (q, Raise (TypeError text)))
  /\ call_back prepare_js_call (CheckIsLoaded result_callback fn args) v q
     = (if v then (q ++ [check_exists], Return tt)
        else (q, Raise (InvalidJavaScriptError
                          "Because graph is unloaded can't call the JavaScript API.")))
  /\ call_back prepare_js_call (CheckFunctionExist result_callback fn args) v q
     = (if v then
          ((call_api prepare_js_call _web_view false result_callback fn args q).1,
           Return tt)
        else (q, Raise (InvalidJavaScriptError
                          ("Unable to find function " +:+ dquote +:+ fn +:+ dquote
                           +:+ " in QmxGraph JavaScript API")))).
Proof.
  intros probe check_exists. split_and!.
  - by eexists.
  - by destruct v.
  - by destruct v.
Qed.

End facts.

End ApiFacts.

(* ------------------------------------------------------------------------- *)
(** * More about CallbackBarrier: what holds whatever the client does *)
(* ------------------------------------------------------------------------- *)

Module BarrierMore.

Import Barrier.

#[local] Open Scope Z_scope.

Section facts.

Context {Key : Type} `{KeyCountable : Countable Key} `{KeyRepr : Repr Key}.
Context {Any Callable : Type} `{CallableBehaviour : Behaviour Callable}.

Abbreviation World := (@World Key _ _ Any Callable).
Abbreviation stmt := (@stmt Key Any Callable).
Abbreviation CallbackBarrier := (@CallbackBarrier Key _ _ Callable).

Implicit Types (w : World) (s : stmt) (l : list stmt) (b : CallbackBarrier).

(** ** Every statement is one of the transitions *)

Lemma wait_transition w :
  transition (self w) (trace w) [] (self (wait w).1) (trace (wait w).1).
Proof.
  rewrite BarrierFacts.wait_eq.
  destruct (_crossed (self w)) eqn:Ec; [constructor|].
  destruct (_waiting_on_barrier (self w)) eqn:Ew; [constructor|].
  destruct (Z.ltb_spec (_calls_pending (self w)) 0); [constructor|]. simpl.
  destruct (Z.eqb_spec (_calls_pending (self w)) 0) as [E0|E0].
  - rewrite BarrierFacts.cross_barrier_eq. simpl.
    by apply (transition_wait_cross (self w) (trace w)).
  - simpl. apply transition_wait; [done|done|lia].
Qed.

Lemma call_transition args kwargs w :
  transition (self w) (trace w) []
    (self (__call__ args kwargs w).1) (trace (__call__ args kwargs w).1).
Proof.
  rewrite BarrierFacts.call_eq.
  destruct (_crossed (self w)) eqn:Ec; [constructor|]. simpl.
  destruct (_waiting_on_barrier (self w)) eqn:Ew; simpl.
  - destruct (Z.eqb_spec (_calls_pending (self w) - 1) 0) as [E0|E0].
    + rewrite BarrierFacts.cross_barrier_eq. simpl. rewrite E0.
      apply (transition_call_cross (self w) (trace w)); [done|done|lia].
    + simpl. apply transition_call; [done|]. intros _. lia.
  - apply transition_call; [done|]. intros ?. congruence.
Qed.

Lemma create_transition key w :
  transition (self w) (trace w) []
    (self (create_stored_result_callback key w).1)
    (trace (create_stored_result_callback key w).1).
Proof.
  rewrite BarrierFacts.create_eq.
  destruct (_stored_results (self w) !! key) eqn:Ek; [constructor|]. simpl.
  destruct (_waiting_on_barrier (self w)) eqn:Ew; [constructor|].
  destruct (_crossed (self w)) eqn:Ec; [constructor|]. simpl.
  by apply transition_create.
Qed.

Lemma exec_transition s w :
  transition (self w) (trace w) (registered [s])
    (self (exec s w).1) (trace (exec s w).1).
Proof.
  destruct s; cbn [exec registered]; rewrite ?BarrierFacts.bind_ret_fst.
  - rewrite BarrierFacts.register_eq. simpl.
    destruct (_crossed (self w)) eqn:Ec.
    + rewrite BarrierFacts.cross_barrier_eq. simpl.
      by apply (transition_register_late (self w) (trace w)).
    + by apply transition_register.
  - apply create_transition.
  - rewrite BarrierFacts.getitem_eq.
    destruct (_ !! item); [constructor | apply create_transition].
  - rewrite BarrierFacts.get_result_fst. constructor.
  - rewrite BarrierFacts.increment_eq.
    destruct (_waiting_on_barrier (self w)) eqn:Ew; [constructor|].
    destruct (_crossed (self w)) eqn:Ec; [constructor|]. simpl.
    destruct (Z.ltb_spec n 1); [constructor|]. by apply transition_increment.
  - apply wait_transition.
  - apply call_transition.
  - rewrite BarrierFacts.slot_call_eq.
    destruct (heap w !! a) as [r|]; [|constructor].
    destruct (_called r); [constructor|]. simpl.
    destruct (_parent r) as [[]|]; [|constructor].
    pose proof (call_transition [value] []
      (mkWorld (self w)
         (<[a := mkStoredResult (Some ThisBarrier) (_key r) value true]> (heap w))
         (trace w))) as Ht.
    by destruct (__call__ _ _ _) as [w2 [[]|e]].
  - rewrite BarrierFacts.slot_value_fst. constructor.
  - apply wait_transition.
Qed.

Lemma attempt_snoc l s w : attempt (l ++ [s]) w = (exec s (attempt l w)).1.
Proof. unfold attempt. by rewrite foldl_app. Qed.

Lemma registered_app l1 l2 : registered (l1 ++ l2) = registered l1 ++ registered l2.
Proof.
  induction l1 as [|s l1 IH]; [done|]. destruct s; simpl; by rewrite ?IH.
Qed.

Lemma calls_made_app (t1 t2 : list (@event Callable)) :
  calls_made (t1 ++ t2) = calls_made t1 ++ calls_made t2.
Proof. apply List.filter_app. Qed.

Lemma calls_made_invocations (cs : list (Callable * bool)) :
  calls_made (map invocation cs) = map invocation cs.
Proof. induction cs as [|c cs IH]; [done|]. simpl. by rewrite IH. Qed.

Lemma calls_made_cross b (t : list (@event Callable)) :
  Forall (fun c => raises c.1 = None) (_to_execute_after_barrier b) ->
  calls_made (cross_trace b t)
  = calls_made t ++ map invocation (_to_execute_after_barrier b).
Proof.
  intros Hret. unfold cross_trace. rewrite calls_made_app. simpl.
  destruct (BarrierFacts.called_of_returning _ Hret) as [-> _].
  by rewrite calls_made_invocations.
Qed.

(** ** Continuations *)

(* The registrations split into those that were called, in this order, and
   those that the barrier still holds. *)
Lemma continuations_split l :
  Forall (fun c => raises c.1 = None) (registered l) ->
  exists called,
    registered l
    = called ++ _to_execute_after_barrier (self (attempt l __init__))
    /\ calls_made (trace (attempt l __init__)) = map invocation called.
Proof.
  induction l as [|s l IH] using rev_ind; intros Hret.
  - by exists [].
  - rewrite registered_app in Hret. apply Forall_app in Hret as [Hl Hs].
    destruct (IH Hl) as (called & Hreg & Hcalls).
    rewrite attempt_snoc, registered_app.
    pose proof (exec_transition s (attempt l __init__)) as Ht.
    set (w := attempt l __init__) in *.
    assert (Hte : Forall (fun c => raises c.1 = None)
                    (_to_execute_after_barrier (self w))).
    { rewrite Hreg in Hl. by apply Forall_app in Hl as [_ ?]. }
    generalize dependent (registered [s]).
    generalize (self (exec s w).1) (trace (exec s w).1).
    intros b' t' reg Hs Ht.
    destruct Ht as [ | c Hc | c Hc | n Hw Hc Hn | key a Hw Hc Hk
                   | Hw Hc Hp | Hw Hc Hp | Hc Hp | Hw Hc Hp]; simpl.
    + exists called. by rewrite app_nil_r.
    + exists called. by rewrite Hreg, app_assoc.
    + exists (called ++ _to_execute_after_barrier (self w) ++ [c]).
      rewrite app_nil_r, Hreg, <- app_assoc. split; [done|].
      rewrite calls_made_cross by (simpl; apply Forall_app; by split).
      simpl. by rewrite Hcalls, <- map_app.
    + exists called. by rewrite app_nil_r.
    + exists called. by rewrite app_nil_r.
    + exists called. by rewrite app_nil_r.
    + exists (called ++ _to_execute_after_barrier (self w)).
      rewrite !app_nil_r. split; [done|].
      rewrite calls_made_cross by done. by rewrite Hcalls, <- map_app.
    + exists called. by rewrite app_nil_r.
    + exists (called ++ _to_execute_after_barrier (self w)).
      rewrite !app_nil_r. split; [done|].
      rewrite calls_made_cross by done. by rewrite Hcalls, <- map_app.
Qed.

(** X1.  Whatever the client does with a barrier, in whatever order and
    whether or not its calls raise: as long as the continuations return, the
    calls the barrier has made to continuations, followed by the
    continuations it still holds, are exactly the registrations, in the order
    of registration.  No continuation is lost and none is called twice. *)
Theorem continuations_called_once l :
  Forall (fun c => raises c.1 = None) (registered l) ->
  calls_made (trace (attempt l __init__))
  ++ map invocation (_to_execute_after_barrier (self (attempt l __init__)))
  = map invocation (registered l).
Proof.
  intros Hret. destruct (continuations_split l Hret) as (called & -> & ->).
  by rewrite map_app.
Qed.

(** ** The crossed barrier *)

Lemma transition_crossed_ok b (t : list (@event Callable)) reg b' t' :
  transition b t reg b' t' -> crossed_ok b -> crossed_ok b'.
Proof.
  intros Ht Hb. unfold crossed_ok in *.
  destruct Ht; simpl; try done; try (intros ?; congruence).
  intros _. by destruct Hb as (-> & _ & _).
Qed.

Lemma attempt_crossed_ok l : crossed_ok (self (attempt l (__init__ : World))).
Proof.
  induction l as [|s l IH] using rev_ind; [done|].
  rewrite attempt_snoc. eapply transition_crossed_ok; [apply exec_transition|done].
Qed.

Lemma crossed_barrier_is_spent_aux w :
  reachable w -> crossed w ->
  _calls_pending (self w) = 0
  /\ _waiting_on_barrier (self w) = false
  /\ _to_execute_after_barrier (self w) = [].
Proof. intros [l ->] Hc. by apply attempt_crossed_ok. Qed.

(** X2.  A barrier that has crossed has a count of zero, does not wait and
    holds no continuation, whatever was done to it before and after the
    crossing. *)
Theorem crossed_barrier_is_spent w :
  reachable w -> crossed w ->
  _calls_pending (self w) = 0
  /\ _waiting_on_barrier (self w) = false
  /\ _to_execute_after_barrier (self w) = [].
Proof. apply crossed_barrier_is_spent_aux. Qed.

(** X3.  A continuation that is registered with a barrier that has crossed
    is called at once, and only it: the trace grows by one run of
    [_cross_barrier] with this one call, [register] ends as the continuation
    does, and the barrier is as it was. *)
Theorem late_registration_runs_at_once w to_call pass_self :
  reachable w -> crossed w ->
  register to_call pass_self w
  = (mkWorld (self w) (heap w)
       (trace w ++ [CrossBarrier; invocation (to_call, pass_self)]),
     match raises to_call with Some e => Raise e | None => Return tt end).
Proof.
  intros Hr Hc. destruct (crossed_barrier_is_spent_aux w Hr Hc) as (Hp & Hw & Hte).
  rewrite BarrierFacts.register_eq. simpl. unfold crossed in Hc. rewrite Hc.
  rewrite BarrierFacts.cross_barrier_eq. simpl. rewrite Hte. simpl.
  destruct w as [[wt cr p sr te] h t]. simpl in *. subst.
  by destruct (raises to_call).
Qed.

(** ** After [wait()] *)

Lemma attempt_not_editing l w : ~ editing w -> ~ editing (attempt l w).
Proof. intros Hw He. by apply Hw, (BarrierFacts.attempt_editing_back l). Qed.

Lemma wait_returned_not_editing w w1 :
  wait w = (w1, Return tt) -> ~ editing w1.
Proof.
  rewrite BarrierFacts.wait_eq.
  destruct (_crossed (self w)); [done|].
  destruct (_waiting_on_barrier (self w)); [done|].
  destruct (_ <? 0); [done|]. simpl.
  destruct (_ =? 0).
  - rewrite BarrierFacts.cross_barrier_eq. intros [= <- _] [_ ?]. done.
  - intros [= <-] [? _]. done.
Qed.

Lemma not_editing_cases w :
  ~ editing w ->
  (_waiting_on_barrier (self w) || _crossed (self w))%bool = true.
Proof.
  unfold editing. destruct (_waiting_on_barrier (self w)), (_crossed (self w));
    try done. intros []. done.
Qed.

(* Only a barrier that is still edited gets new slots. *)
Lemma exec_not_editing_stored s w :
  ~ editing w ->
  _stored_results (self (exec s w).1) = _stored_results (self w).
Proof.
  intros Hw. pose proof (exec_transition s w) as Ht.
  destruct Ht; try done. exfalso. by apply Hw.
Qed.

Lemma attempt_not_editing_stored l w :
  ~ editing w ->
  _stored_results (self (attempt l w)) = _stored_results (self w).
Proof.
  revert w. induction l as [|s l IH]; intros w Hw; [done|]. simpl.
  rewrite IH.
  - by apply exec_not_editing_stored.
  - intros He. by apply Hw, (BarrierFacts.exec_editing_back s).
Qed.

(** X4.  Once [wait()] has returned, it never returns again and no
    increment is accepted any more, whatever the client does in between:
    [wait()] raises 'can't wait on crossed barrier' or 'already waiting on
    barrier', [increment] raises 'can't increment barrier after wait', and
    both leave the barrier as it is. *)
Theorem no_second_wait_no_late_increment w w1 l n :
  wait w = (w1, Return tt) ->
  let w2 := attempt l w1 in
  wait w2
  = (w2, Raise (RuntimeError (if _crossed (self w2)
                              then "can't wait on crossed barrier"
                              else "already waiting on barrier")))
  /\ increment n w2
     = (w2, Raise (RuntimeError "can't increment barrier after wait")).
Proof.
  intros Hwait w2.
  pose proof (attempt_not_editing l w1 (wait_returned_not_editing _ _ Hwait)) as Hne.
  fold w2 in Hne. apply not_editing_cases in Hne.
  rewrite BarrierFacts.wait_eq, BarrierFacts.increment_eq, Hne.
  split; [|done]. destruct (_crossed (self w2)); [done|].
  rewrite orb_false_r in Hne. by rewrite Hne.
Qed.

(** X5.  Once [wait()] has returned, the slots of the barrier are fixed:
    whatever the client does, the mapping from keys to slots stays as it
    was, and asking for the slot of a key that has none raises
    'can't increment barrier after wait' and leaves the key without a
    slot and the count as it is. *)
Theorem slots_fixed_after_wait w w1 l key :
  wait w = (w1, Return tt) ->
  let w2 := attempt l w1 in
  _stored_results (self w2) = _stored_results (self w1)
  /\ (_stored_results (self w1) !! key = None ->
      (__getitem__ key w2).2
      = Raise (RuntimeError "can't increment barrier after wait")
      /\ (create_stored_result_callback key w2).2
         = Raise (RuntimeError "can't increment barrier after wait")
      /\ self (__getitem__ key w2).1 = self w2
      /\ self (create_stored_result_callback key w2).1 = self w2).
Proof.
  intros Hwait w2.
  pose proof (wait_returned_not_editing _ _ Hwait) as Hne1.
  pose proof (attempt_not_editing l w1 Hne1) as Hne. fold w2 in Hne.
  pose proof (attempt_not_editing_stored l w1 Hne1) as Hst. fold w2 in Hst.
  split; [done|]. intros Hk. apply not_editing_cases in Hne.
  rewrite BarrierFacts.getitem_eq, BarrierFacts.create_eq, Hst, Hk. simpl.
  by rewrite Hne.
Qed.

(** ** Slots and keys *)

Lemma wait_frame w :
  heap (wait w).1 = heap w
  /\ _stored_results (self (wait w).1) = _stored_results (self w).
Proof.
  rewrite BarrierFacts.wait_eq.
  destruct (_crossed (self w)); [done|].
  destruct (_waiting_on_barrier (self w)); [done|].
  destruct (_ <? 0); [done|]. simpl.
  destruct (_ =? 0); [by rewrite BarrierFacts.cross_barrier_eq|done].
Qed.

Lemma exec_store_transition s w :
  store_transition s (heap w) (_stored_results (self w))
    (heap (exec s w).1) (_stored_results (self (exec s w).1)).
Proof.
  destruct s; cbn [exec]; rewrite ?BarrierFacts.bind_ret_fst.
  - rewrite BarrierFacts.register_eq. simpl.
    destruct (_crossed (self w));
      [rewrite BarrierFacts.cross_barrier_eq|]; constructor.
  - rewrite BarrierFacts.create_eq.
    destruct (_ !! key) eqn:Ek; [constructor|]. simpl.
    destruct (_ || _)%bool; simpl;
      [eapply store_lost | eapply store_create]; eauto.
  - rewrite BarrierFacts.getitem_eq.
    destruct (_ !! item) eqn:Ek; [constructor|].
    rewrite BarrierFacts.create_eq, Ek. simpl.
    destruct (_ || _)%bool; simpl;
      [eapply store_lost | eapply store_create]; eauto.
  - rewrite BarrierFacts.get_result_fst. constructor.
  - rewrite BarrierFacts.increment_eq. destruct (_ || _)%bool; [constructor|].
    destruct (n <? 1); constructor.
  - destruct (wait_frame w) as [-> ->]. constructor.
  - destruct (BarrierFacts.call_frame args kwargs w) as [-> ->]. constructor.
  - pose proof (BarrierFacts.slot_call_heap a value w) as Hh.
    assert (Hst : _stored_results (self (StoredResult_call a value w).1)
                  = _stored_results (self w)).
    { destruct (BarrierFacts.slot_call_self a value w) as [->|[h ->]]; [done|].
      by destruct (BarrierFacts.call_frame [value] []
                     (mkWorld (self w) h (trace w))) as [_ ->]. }
    rewrite Hst. destruct (heap w !! a) as [r|] eqn:E; [|rewrite Hh; constructor].
    destruct (_called r) eqn:Ec; [rewrite Hh; constructor|].
    destruct Hh as [p ->]. by eapply store_fill.
  - rewrite BarrierFacts.slot_value_fst. constructor.
  - unfold __exit__. destruct (wait_frame w) as [-> ->]. constructor.
Qed.

Lemma store_transition_well_formed s w h' m' :
  well_formed w ->
  store_transition s (heap w) (_stored_results (self w)) h' m' ->
  (forall key a, m' !! key = Some a ->
                 exists r, h' !! a = Some r /\ _key r = repr key)
  /\ (forall key1 key2 a,
        m' !! key1 = Some a -> m' !! key2 = Some a -> key1 = key2)
  /\ (forall a r, h' !! a = Some r -> _called r = false ->
                  _parent r = Some ThisBarrier).
Proof.
  intros [Hslot Hown Hparent] Ht.
  assert (Hin : forall key a, _stored_results (self w) !! key = Some a ->
                              (a < length (heap w))%nat).
  { intros key a Hk. destruct (Hslot key a Hk) as (r & Hr & _).
    by eapply lookup_lt_Some. }
  destruct Ht as [ | key Hs Hnone | key Hs Hnone | a value r p Hs Hr Hc ].
  - done.
  - split_and!.
    + intros key' a Hk. destruct (Hslot key' a Hk) as (r & Hr & Hkey).
      exists r. split; [|done]. rewrite lookup_app_l; [done|].
      by eapply lookup_lt_Some.
    + done.
    + intros a r Hr Hc. apply lookup_snoc_Some in Hr as [[_ Hr]|[_ <-]];
        [by eapply Hparent | done].
  - split_and!.
    + intros key' a Hk. destruct (decide (key = key')) as [<-|Hne].
      * rewrite lookup_insert_eq in Hk. injection Hk as <-.
        exists (StoredResult_init ThisBarrier key).
        by rewrite list_lookup_middle.
      * rewrite lookup_insert_ne in Hk by done.
        destruct (Hslot key' a Hk) as (r & Hr & Hkey).
        exists r. split; [|done]. rewrite lookup_app_l; [done|].
        by eapply lookup_lt_Some.
    + intros key1 key2 a H1 H2.
      destruct (decide (key = key1)) as [<-|Hne1],
               (decide (key = key2)) as [<-|Hne2]; [done| | |].
      * rewrite lookup_insert_eq in H1. injection H1 as <-.
        rewrite lookup_insert_ne in H2 by done. apply Hin in H2. lia.
      * rewrite lookup_insert_eq in H2. injection H2 as <-.
        rewrite lookup_insert_ne in H1 by done. apply Hin in H1. lia.
      * rewrite lookup_insert_ne in H1, H2 by done. by eapply Hown.
    + intros a r Hr Hc. apply lookup_snoc_Some in Hr as [[_ Hr]|[_ <-]];
        [by eapply Hparent | done].
  - split_and!.
    + intros key a' Hk. destruct (Hslot key a' Hk) as (r' & Hr' & Hkey).
      destruct (decide (a = a')) as [<-|Hne].
      * eexists. rewrite list_lookup_insert_eq by (by eapply lookup_lt_Some).
        split; [done|]. simpl. congruence.
      * exists r'. by rewrite list_lookup_insert_ne.
    + done.
    + intros a' r' Hr' Hc'. destruct (decide (a = a')) as [<-|Hne].
      * rewrite list_lookup_insert_eq in Hr' by (by eapply lookup_lt_Some).
        by injection Hr' as <-.
      * rewrite list_lookup_insert_ne in Hr' by done. by eapply Hparent.
Qed.

Lemma exec_well_formed s w : well_formed w -> well_formed (exec s w).1.
Proof.
  intros Hw.
  destruct (store_transition_well_formed s w _ _ Hw (exec_store_transition s w))
    as (H1 & H2 & H3).
  by split.
Qed.

Lemma init_well_formed : well_formed (__init__ : World).
Proof. by split. Qed.

Lemma reachable_well_formed_aux w : reachable w -> well_formed w.
Proof.
  intros [l ->]. induction l as [|s l IH] using rev_ind.
  - apply init_well_formed.
  - rewrite attempt_snoc. by apply exec_well_formed.
Qed.

(** X6.  Whatever the client does, slots and keys fit together: every key
    of the mapping leads to a slot that exists and was made for that key, no
    two keys share a slot, and a slot that was not called still refers to its
    barrier. *)
Theorem reachable_well_formed w : reachable w -> well_formed w.
Proof. apply reachable_well_formed_aux. Qed.

(* A call of the barrier does not look at the slots. *)
Lemma call_heap_independent args kwargs b (h h' : list (@StoredResult Any))
    (t : list (@event Callable)) :
  __call__ args kwargs (mkWorld b h' t)
  = (mkWorld (self (__call__ args kwargs (mkWorld b h t)).1) h'
       (trace (__call__ args kwargs (mkWorld b h t)).1),
     (__call__ args kwargs (mkWorld b h t)).2).
Proof.
  rewrite !BarrierFacts.call_eq. simpl. destruct (_crossed b); [done|].
  destruct (_ && _)%bool; [|done]. by rewrite !BarrierFacts.cross_barrier_eq.
Qed.

(** X7.  For the barrier, the first call of a slot is a call of the barrier
    itself with the value: it leaves the fields of the barrier and the trace
    as that call does and ends as that call ends.  The slot is marked as
    called and holds the value; its reference to the barrier is dropped when
    the call returned and kept when it raised.  In particular a slot never
    finds itself without a barrier to call. *)
Theorem slot_call_is_barrier_call w a r value :
  reachable w ->
  heap w !! a = Some r ->
  _called r = false ->
  let c := __call__ [value] [] w in
  StoredResult_call a value w
  = (mkWorld (self c.1)
       (<[a := mkStoredResult
                 (match c.2 with Return _ => None | Raise _ => Some ThisBarrier end)
                 (_key r) value true]> (heap w))
       (trace c.1),
     c.2).
Proof.
  intros Hreach Hr Hc c.
  pose proof (wf_parent w (reachable_well_formed_aux w Hreach) a r Hr Hc) as Hp.
  rewrite BarrierFacts.slot_call_eq, Hr, Hc, Hp. simpl.
  destruct w as [b h t]. simpl in *.
  rewrite (call_heap_independent [value] [] b h). fold c.
  destruct c as [w2 [[]|e]]; simpl; [|done].
  do 2 f_equal. apply list_eq. intros i.
  destruct (decide (i = a)) as [->|Hne].
  - rewrite list_lookup_alter_eq, !list_lookup_insert_eq;
      [done | by eapply lookup_lt_Some | by eapply lookup_lt_Some].
  - by rewrite list_lookup_alter_ne, !list_lookup_insert_ne.
Qed.

(** X8.  A key that has a slot keeps it and never gets another one: whatever
    the client does, [create_stored_result_callback] for this key raises
    [ValueError] and changes nothing, and the key still leads to the same
    slot. *)
Theorem key_never_reused w key a l :
  _stored_results (self w) !! key = Some a ->
  let w' := attempt l w in
  _stored_results (self w') !! key = Some a
  /\ create_stored_result_callback key w'
     = (w', Raise (ValueError
                     ("stored result " +:+ dquote +:+ "key" +:+ dquote
                      +:+ " already in use (" +:+ dquote +:+ "key" +:+ dquote
                      +:+ "s should be unique)"))).
Proof.
  intros Hk w'. pose proof (BarrierFacts.attempt_stored l w key a Hk) as Hk'.
  fold w' in Hk'. split; [done|]. by rewrite BarrierFacts.create_eq, Hk'.
Qed.

(* A key that no statement asks a slot for has none. *)
Lemma attempt_key_not_asked l w key :
  key ∉ keys_asked l ->
  _stored_results (self w) !! key = None ->
  _stored_results (self (attempt l w)) !! key = None.
Proof.
  revert w. induction l as [|s l IH]; intros w Hl Hw; [done|]. simpl.
  pose proof (exec_store_transition s w) as Ht.
  assert (Hl' : key ∉ keys_asked l).
  { destruct s; simpl in Hl; try done; by apply not_elem_of_cons in Hl as [_ ?]. }
  apply IH; [done|].
  destruct Ht as [ | key' Hs Hnone | key' Hs Hnone | a value r p Hs Hr Hc ];
    try done.
  rewrite lookup_insert_ne; [done|]. intros <-.
  destruct Hs as [-> | ->]; simpl in Hl; by apply not_elem_of_cons in Hl as [? _].
Qed.

(** X9.  Between the creation of a slot and its first call, whatever else
    the client does, [get_result] for its key raises [AssertionError] with
    the message 'stored results key: ' followed by [repr(key)], and changes
    nothing. *)
Theorem get_result_before_delivery w key a w1 l :
  create_stored_result_callback key w = (w1, Return a) ->
  Forall (fun s => forall v, s <> DoSlotCall a v) l ->
  get_result key (attempt l w1)
  = (attempt l w1, Raise (AssertionError ("stored results key: " +:+ repr key))).
Proof.
  intros Hcreate Hl. rewrite BarrierFacts.create_eq in Hcreate.
  destruct (_stored_results (self w) !! key) eqn:Ekey; [done|].
  simpl in Hcreate. destruct (_ || _)%bool; [done|].
  injection Hcreate as <- <-.
  set (w1 := mkWorld _ _ _) in *.
  assert (Hslot : heap w1 !! length (heap w)
                  = Some (StoredResult_init ThisBarrier key)).
  { simpl. by rewrite list_lookup_middle. }
  assert (Hkey : _stored_results (self w1) !! key = Some (length (heap w))).
  { simpl. by rewrite lookup_insert_eq. }
  rewrite BarrierFacts.get_result_eq,
    (BarrierFacts.attempt_stored l w1 key _ Hkey),
    BarrierFacts.slot_value_eq,
    (BarrierFacts.attempt_not_called l w1 _ _ Hslot eq_refl Hl).
  done.
Qed.

(** X10.  For a key that the client never asked a slot for, neither by
    [create_stored_result_callback] nor by indexing, [get_result] raises
    [KeyError] and changes nothing, whatever else the client did. *)
Theorem get_result_of_unknown_key l key :
  key ∉ keys_asked l ->
  get_result key (attempt l __init__)
  = (attempt l __init__, Raise (KeyError (repr key))).
Proof.
  intros Hk. rewrite BarrierFacts.get_result_eq.
  by rewrite (attempt_key_not_asked l __init__ key Hk).
Qed.

End facts.

End BarrierMore.

(* ------------------------------------------------------------------------- *)
(** * More about CallbackBlocker *)
(* ------------------------------------------------------------------------- *)

Module BlockerMore.

Import Blocker.

#[local] Open Scope Z_scope.

Section facts.

Context {Any : Type}.

Abbreviation CallbackBlocker := (@CallbackBlocker Any).

Implicit Types (b : CallbackBlocker) (events : list (@loop_event Any))
  (l : list (@stmt Any)).

(* The loop of a blocker that was not called ends at the decisive event. *)
Lemma run_loop_decisive events b :
  called b = false -> _loop b = true ->
  (forall t, _timer b = Some t -> active t = true /\ connected t = true) ->
  run_loop events b
  = match decisive (has_timer b) events with
    | None => None
    | Some (CallbackFired args kwargs) => Some (completed args kwargs b, Return tt)
    | Some TimerExpired => Some (timed_out b, Return tt)
    end.
Proof.
  intros Hc Hl Ht. induction events as [|[args kwargs|] events IH]; simpl.
  - done.
  - by rewrite BlockerFacts.blocker_call_eq, Hc.
  - unfold mbind, M_bind, getattr, has_timer in *. simpl.
    destruct (_timer b) as [t|] eqn:Et.
    + destruct (Ht t eq_refl) as [-> ->]. simpl.
      rewrite BlockerFacts.quit_loop_by_timeout_eq. simpl.
      by destruct b.
    + simpl. by rewrite Hl.
Qed.

Lemma wait_decided events b :
  called b = false ->
  wait events b
  = match decisive (has_timer b) events with
    | None => None
    | Some (CallbackFired args kwargs) => Some (completed args kwargs b, Return tt)
    | Some TimerExpired =>
        Some (timed_out b, Raise (TimeoutError (timeout_message b)))
    end.
Proof.
  intros Hc. unfold wait, exec_. rewrite Hc.
  destruct b as [t a m k c lp [tm|]]; simpl in *.
  - rewrite run_loop_decisive; [| done | done | by intros ? [= <-]].
    unfold has_timer. simpl.
    destruct (decisive true events) as [[args kwargs|]|]; [done| |done].
    simpl. by rewrite Hc.
  - rewrite run_loop_decisive; [| done | done | done].
    unfold has_timer. simpl.
    destruct (decisive false events) as [[args kwargs|]|]; [done| |done].
    simpl. by rewrite Hc.
Qed.

(** X11.  What [wait()] does with a blocker that was not called is decided
    by one event: the first call of the callback, or, when the blocker has a
    timer, the first expiry of the timer if it comes before.  The call makes
    [wait()] return with the arguments kept; the expiry makes it raise
    [TimeoutError]; the events after that are not looked at; without such
    an event [wait()] does not return.  A blocker without timer never raises
    [TimeoutError]. *)
Theorem wait_is_decided_by_one_event events b :
  called b = false ->
  wait events b
  = match decisive (has_timer b) events with
    | None => None
    | Some (CallbackFired args kwargs) => Some (completed args kwargs b, Return tt)
    | Some TimerExpired =>
        Some (timed_out b, Raise (TimeoutError (timeout_message b)))
    end.
Proof. apply wait_decided. Qed.

Lemma decisive_without_timer events :
  decisive false events <> Some (@TimerExpired Any).
Proof. induction events as [|[args kwargs|] events IH]; simpl; done. Qed.

Lemma wait_called events b : called b = true -> wait events b = Some (b, Return tt).
Proof. intros Hc. unfold wait. by rewrite Hc. Qed.

Lemma completed_ok args kwargs b : blocker_ok (completed args kwargs b).
Proof. split; simpl; try done; by split. Qed.

Lemma timed_out_ok b : blocker_ok b -> called b = false -> blocker_ok (timed_out b).
Proof. intros [Ha Hk _ _] Hc. split; simpl; try done; intros ?; congruence. Qed.

Lemma wait_ok events b b' r :
  blocker_ok b -> wait events b = Some (b', r) -> blocker_ok b'.
Proof.
  intros Hb. destruct (called b) eqn:Hc.
  - rewrite wait_called by done. by intros [= <- _].
  - rewrite wait_decided by done.
    destruct (decisive _ _) as [[args kwargs|]|]; [| |done]; intros [= <- _].
    + apply completed_ok.
    + by apply timed_out_ok.
Qed.

Lemma exec_ok s b b' r :
  blocker_ok b -> exec s b = Some (b', r) -> blocker_ok b'.
Proof.
  intros Hb. destruct s as [args kwargs|events|[e|] events]; simpl.
  - rewrite BlockerFacts.blocker_call_eq. destruct (called b); intros [= <- _];
      [done | apply completed_ok].
  - by apply wait_ok.
  - by intros [= <- _].
  - by apply wait_ok.
Qed.

Lemma init_ok timeout m : blocker_ok (__init__ timeout m : CallbackBlocker).
Proof.
  split; simpl; try done; split; try done; by intros [? ?].
Qed.

(** X12.  Whatever the client does with a blocker, between two statements
    the blocker is as the docstring of the class has it: [args] and
    [kwargs] are [None] exactly as long as the callback was not called.
    Also, the loop does not run, and once the callback was called there is
    no timer left. *)
Theorem blocker_stays_ok timeout m l b :
  attempt l (__init__ timeout m) = Some b -> blocker_ok b.
Proof.
  generalize (init_ok timeout m). generalize (__init__ timeout m : CallbackBlocker).
  induction l as [|s l IH]; intros b0 Hb0; simpl.
  - by intros [= <-].
  - destruct (exec s b0) as [[b1 r]|] eqn:Es; [|done].
    apply IH. by eapply exec_ok.
Qed.

Lemma attempt_called l b : called b = true -> attempt l b = Some b.
Proof.
  intros Hc. induction l as [|s l IH]; [done|]. simpl.
  destruct s as [args kwargs|events|[e|] events]; simpl.
  - by rewrite BlockerFacts.blocker_call_eq, Hc.
  - by rewrite wait_called.
  - done.
  - by rewrite wait_called.
Qed.

(** X13.  The first call of a blocker is the only one that leaves a mark:
    after it, whatever the client does, calls, waits and exits, the blocker
    stays exactly as that call left it, with the arguments of that call in
    [args] and [kwargs]; and every [wait()] returns at once. *)
Theorem first_call_is_final args kwargs b b1 l events :
  __call__ args kwargs b = (b1, Return tt) ->
  attempt l b1 = Some b1
  /\ Blocker.args b1 = Some args
  /\ Blocker.kwargs b1 = Some kwargs
  /\ wait events b1 = Some (b1, Return tt).
Proof.
  rewrite BlockerFacts.blocker_call_eq. destruct (called b); [done|].
  intros [= <-]. split_and!; [by apply attempt_called | done | done |].
  by apply wait_called.
Qed.

(** X14.  After a [wait()] that raised [TimeoutError] the blocker has no
    timer any more: a further [wait()] returns when the callback is called
    and otherwise does not return; it never raises [TimeoutError] again. *)
Theorem no_second_timeout events b b1 text events' :
  wait events b = Some (b1, Raise (TimeoutError text)) ->
  wait events' b1
  = match decisive false events' with
    | Some (CallbackFired args kwargs) => Some (completed args kwargs b1, Return tt)
    | _ => None
    end.
Proof.
  intros Hw. destruct (called b) eqn:Hc.
  - by rewrite wait_called in Hw.
  - rewrite wait_decided in Hw by done.
    destruct (decisive _ events) as [[args kwargs|]|]; [done| |done].
    injection Hw as <- _. rewrite wait_decided by done.
    unfold has_timer. simpl.
    pose proof (decisive_without_timer events').
    by destruct (decisive false events') as [[args kwargs|]|].
Qed.

End facts.

End BlockerMore.

(* ------------------------------------------------------------------------- *)
(** * More about the gateway *)
(* ------------------------------------------------------------------------- *)

Module ApiMore.

Import Api.

Section wrappers.

Context {Callback : Type}.
Variable prepare_js_call : string -> list pyarg -> string.
Variable _web_view : WebView.

(** X16.  [set_edge_terminal] makes a request only for the terminal types
    'source' and 'target', and only when debug mode is off: it then makes
    exactly one request, the call of setEdgeTerminal with its four
    arguments, and hands back the callback.  For any other value it raises
    [ValueError] with a message that begins with the value, and asks nothing
    of the graph, in debug mode or not.  For a valid value in debug mode the
    guard raises [TypeError], since [QmxGraph.is_loaded] takes no callback,
    and nothing is asked of the graph. *)
Theorem set_edge_terminal_checks_type (debug : bool) (result_callback : Callback)
    (edge_id terminal_type new_terminal_cell_id : string)
    (port_name : option string) (q : list (@request pyarg Callback)) :
  let r := set_edge_terminal prepare_js_call _web_view debug result_callback
             edge_id terminal_type new_terminal_cell_id port_name q in
  let call :=
    prepare_js_call "setEdgeTerminal"
      [ArgStr edge_id; ArgStr terminal_type; ArgStr new_terminal_cell_id;
       match port_name with Some p => ArgStr p | None => ArgNone end] in
  if decide (terminal_type = "source" \/ terminal_type = "target") then
    if debug then exists text, r = (q, Raise (TypeError text))
    else r = (q ++ [EvalJs (ResultCallback result_callback) ("api." +:+ call)],
              Return result_callback)
  else
    r = (q, Raise (ValueError
                     (terminal_type +:+ " is not a valid value for `terminal_type`"))).
Proof.
  intros r call. subst r call. unfold set_edge_terminal.
  destruct (decide (terminal_type = "source" \/ terminal_type = "target"))
    as [Hv|Hv].
  - rewrite decide_True
      by (destruct Hv as [-> | ->];
          [apply list_elem_of_here | apply list_elem_of_further, list_elem_of_here]).
    destruct debug; [by eexists | done].
  - rewrite decide_False; [done|].
    unfold SOURCE_TERMINAL_CELL, TARGET_TERMINAL_CELL. intros Hin. apply Hv.
    rewrite !elem_of_cons in Hin.
    destruct Hin as [?|[?|Hin]]; [by left | by right | by apply elem_of_nil in Hin].
Qed.

End wrappers.

End ApiMore.

(* ------------------------------------------------------------------------- *)
(** * Facts about handlers and bridges *)
(* ------------------------------------------------------------------------- *)

Module SignalsFacts.

Import Signals.

Section facts.

Context {Slot : Type} `{EqDecision Slot}.

Implicit Types (sig : list Slot) (slot bridge : Slot).

Lemma remove_first_not_in slot sig : slot ∉ sig -> remove_first slot sig = sig.
Proof.
  induction sig as [|x sig IH]; [done|]. intros Hn. simpl.
  apply not_elem_of_cons in Hn as [Hne Hn].
  rewrite decide_False by done. by rewrite IH.
Qed.

Lemma elem_of_remove_first slot sig x :
  NoDup sig -> x ∈ remove_first slot sig <-> x ∈ sig /\ x <> slot.
Proof.
  induction 1 as [|y sig Hy Hnd IH]; simpl.
  - split; [by intros ?%elem_of_nil | by intros [?%elem_of_nil _]].
  - destruct (decide (y = slot)) as [->|Hne].
    + rewrite elem_of_cons. split.
      * intros Hx. split; [by right|]. by intros ->.
      * by intros [[->|?] ?].
    + rewrite !elem_of_cons, IH. split.
      * intros [->|[? ?]]; [by split; [left|] | by split; [right|]].
      * intros [[->|?] ?]; [by left | by right].
Qed.

Lemma remove_first_NoDup slot sig : NoDup sig -> NoDup (remove_first slot sig).
Proof.
  induction 1 as [|y sig Hy Hnd IH]; simpl; [constructor|].
  destruct (decide (y = slot)); [done|]. constructor; [|done].
  rewrite elem_of_remove_first by done. by intros [? _].
Qed.

(* What the two statements of [set_error_bridge] come to. *)
Lemma set_error_bridge_eq bridge sig :
  set_error_bridge bridge sig = (remove_first bridge sig ++ [bridge], Return tt).
Proof.
  unfold set_error_bridge, silent_disconnect, suppress, disconnect, connect,
    mbind, M_bind.
  destruct (decide (bridge ∈ sig)); simpl; [done|].
  by rewrite remove_first_not_in.
Qed.

Lemma reconnect_NoDup bridge sig :
  NoDup sig -> NoDup (remove_first bridge sig ++ [bridge]).
Proof.
  intros Hnd. apply NoDup_app. split_and!.
  - by apply remove_first_NoDup.
  - intros x Hx ->%list_elem_of_singleton.
    apply elem_of_remove_first in Hx as [_ ?]; done.
  - apply NoDup_singleton.
Qed.

Lemma elem_of_reconnect bridge sig x :
  NoDup sig ->
  x ∈ remove_first bridge sig ++ [bridge] <-> x ∈ sig \/ x = bridge.
Proof.
  intros Hnd. rewrite elem_of_app, list_elem_of_singleton, elem_of_remove_first by done.
  destruct (decide (x = bridge)); tauto.
Qed.

Lemma successively_snoc {S A} (method : A -> M S unit) (l : list A) (a : A) (s : S) :
  successively method (l ++ [a]) s = (method a (successively method l s)).1.
Proof. unfold successively. by rewrite foldl_app. Qed.

Lemma reconnect_successively (bridges : list Slot) sig :
  NoDup sig ->
  NoDup (successively set_error_bridge bridges sig)
  /\ forall x, x ∈ successively set_error_bridge bridges sig
               <-> x ∈ sig \/ x ∈ bridges.
Proof.
  intros Hnd. induction bridges as [|bridge bridges [IH1 IH2]] using rev_ind.
  - split; [done|]. intros x. split; [by left|]. by intros [?|?%elem_of_nil].
  - rewrite successively_snoc, set_error_bridge_eq. simpl. split.
    + by apply reconnect_NoDup.
    + intros x. rewrite elem_of_reconnect, IH2, elem_of_app, list_elem_of_singleton
        by done. tauto.
Qed.

(** X17.  Setting a bridge for errors never takes away a bridge that was set
    before, and never connects a bridge twice: after any number of calls of
    [set_error_bridge], the bridges connected are those that were connected
    before and those that were set, each of them once, and the bridge set
    last comes last.  No call raises, whether or not the bridge was
    connected before. *)
Theorem error_bridges_accumulate (bridges : list Slot) bridge sig :
  NoDup sig ->
  let sig' := successively set_error_bridge (bridges ++ [bridge]) sig in
  NoDup sig'
  /\ (forall x, x ∈ sig' <-> x ∈ sig \/ x ∈ bridges ++ [bridge])
  /\ last sig' = Some bridge
  /\ (set_error_bridge bridge sig).2 = Return tt.
Proof.
  intros Hnd sig'. destruct (reconnect_successively (bridges ++ [bridge]) sig Hnd)
    as [H1 H2].
  split_and!; [done | done | | by rewrite set_error_bridge_eq].
  subst sig'. rewrite successively_snoc, set_error_bridge_eq. simpl.
  by rewrite last_snoc.
Qed.

(* What the statements of the two exclusive handlers come to. *)
Lemma set_double_click_handler_eq (handler : option Slot) sig :
  set_double_click_handler handler sig
  = (match handler with Some h => [h] | None => [] end, Return tt).
Proof.
  unfold set_double_click_handler, suppress, disconnect_all, connect,
    mbind, mret, M_bind, M_ret.
  by destruct sig, handler.
Qed.

Lemma set_popup_menu_handler_eq (handler : option Slot) sig :
  set_popup_menu_handler handler sig
  = (match handler with Some h => [h] | None => [] end, Return tt).
Proof.
  unfold set_popup_menu_handler, suppress, disconnect_all, connect,
    mbind, mret, M_bind, M_ret.
  by destruct sig, handler.
Qed.

(** X18.  The handler for double clicks and the handler for the popup menu
    are exclusive: after any number of calls of [set_double_click_handler]
    (of [set_popup_menu_handler]), whatever was connected before, the only
    handler connected is the one of the last call, and none when that call
    gave [None].  No call raises, also when nothing was connected. *)
Theorem exclusive_handlers (handlers : list (option Slot)) (handler : option Slot) sig :
  successively set_double_click_handler (handlers ++ [handler]) sig
  = match handler with Some h => [h] | None => [] end
  /\ successively set_popup_menu_handler (handlers ++ [handler]) sig
     = match handler with Some h => [h] | None => [] end
  /\ (set_double_click_handler handler sig).2 = Return tt
  /\ (set_popup_menu_handler handler sig).2 = Return tt.
Proof.
  rewrite !successively_snoc, set_double_click_handler_eq,
    set_popup_menu_handler_eq.
  by rewrite set_double_click_handler_eq, set_popup_menu_handler_eq.
Qed.

(* One turn of the loop of [set_events_bridge]. *)
Lemma reconnect_signal name bridge (st : string -> list Slot) :
  ((on_signal name (silent_disconnect (Some bridge)) ;;
    on_signal name (connect bridge)) st).2 = Return tt
  /\ forall n,
      ((on_signal name (silent_disconnect (Some bridge)) ;;
        on_signal name (connect bridge)) st).1 n
      = if decide (n = name) then remove_first bridge (st name) ++ [bridge]
        else st n.
Proof.
  pose proof (set_error_bridge_eq bridge (st name)) as He.
  unfold set_error_bridge, mbind, M_bind in He.
  unfold on_signal, mbind, M_bind.
  destruct (silent_disconnect (Some bridge) (st name)) as [sig1 [[]|e]] eqn:E1;
    [|done].
  simpl. rewrite decide_True by done. unfold connect in *. simpl in *.
  injection He as He. rewrite He. split; [done|].
  intros n. by destruct (decide (n = name)).
Qed.

(* A loop over distinct signals does to each of them what one turn does. *)
Lemma for_distinct {S} (names : list string) (body : string -> M (string -> S) unit)
    (f : S -> S) (st : string -> S) :
  (forall name st, (body name st).2 = Return tt
     /\ forall n, (body name st).1 n = if decide (n = name) then f (st name) else st n) ->
  NoDup names ->
  (for_ names body st).2 = Return tt
  /\ forall n, (for_ names body st).1 n
               = if decide (n ∈ names) then f (st n) else st n.
Proof.
  intros Hbody Hnd. revert st.
  induction Hnd as [|name names Hname Hnd IH]; intros st.
  - split; [done|]. intros n. rewrite decide_False; [done|]. apply not_elem_of_nil.
  - change (for_ (name :: names) body st)
      with (match body name st with
            | (st1, Return _) => for_ names body st1
            | (st1, Raise e) => (st1, Raise e)
            end).
    destruct (Hbody name st) as [Hr Hn].
    destruct (body name st) as [st1 [[]|e]]; [|done].
    simpl in Hn. destruct (IH st1) as [IHr IHn].
    split; [done|]. intros n. rewrite IHn, !Hn.
    destruct (decide (n = name)) as [->|Hne].
    + rewrite decide_False by done.
      by rewrite decide_True by apply list_elem_of_here.
    + destruct (decide (n ∈ names)) as [Hin|Hnin].
      * by rewrite decide_True by (by apply list_elem_of_further).
      * rewrite decide_False; [done|]. by intros [?|?]%elem_of_cons.
Qed.

Lemma EventsBridge_signals_NoDup : NoDup EventsBridge_signals.
Proof. apply (bool_decide_unpack _). by vm_compute. Qed.

Lemma set_events_bridge_eq bridge (st : string -> list Slot) :
  (set_events_bridge bridge st).2 = Return tt
  /\ forall n,
      (set_events_bridge bridge st).1 n
      = if decide (n ∈ EventsBridge_signals)
        then (set_error_bridge bridge (st n)).1 else st n.
Proof.
  unfold set_events_bridge.
  destruct (for_distinct EventsBridge_signals
              (fun signal_name =>
                 on_signal signal_name (silent_disconnect (Some bridge)) ;;
                 on_signal signal_name (connect bridge))
              (fun sig => remove_first bridge sig ++ [bridge]) st) as [Hr Hn].
  { intros name st0. apply reconnect_signal. }
  { apply EventsBridge_signals_NoDup. }
  split; [done|]. intros n. rewrite Hn.
  by rewrite set_error_bridge_eq.
Qed.

Lemma successively_events_bridge (bridges : list Slot) (st : string -> list Slot) n :
  successively set_events_bridge bridges st n
  = if decide (n ∈ EventsBridge_signals)
    then successively set_error_bridge bridges (st n) else st n.
Proof.
  induction bridges as [|bridge bridges IH] using rev_ind.
  - simpl. by destruct (decide _).
  - rewrite !successively_snoc.
    destruct (set_events_bridge_eq bridge (successively set_events_bridge bridges st))
      as [_ Hn].
    rewrite Hn, IH. by destruct (decide _).
Qed.

(** X19.  Setting a bridge for events connects each of the eight signals of
    the widget's own bridge to the signal of the same name of the bridge
    given, and touches no other signal.  After any number of calls of
    [set_events_bridge], each of these signals is connected to the bridges
    that were connected to it before and to the bridges that were set, each
    of them once; no call raises. *)
Theorem events_bridges_accumulate (bridges : list Slot) bridge
    (st : string -> list Slot) n :
  NoDup (st n) ->
  let st' := successively set_events_bridge bridges st in
  (set_events_bridge bridge st).2 = Return tt
  /\ NoDup (st' n)
  /\ (n ∈ EventsBridge_signals ->
      forall x, x ∈ st' n <-> x ∈ st n \/ x ∈ bridges)
  /\ (n ∉ EventsBridge_signals -> st' n = st n).
Proof.
  intros Hnd st'. subst st'. rewrite successively_events_bridge.
  destruct (reconnect_successively bridges (st n) Hnd) as [H1 H2].
  split; [apply set_events_bridge_eq|].
  destruct (decide (n ∈ EventsBridge_signals)); split_and!; done.
Qed.

End facts.

End SignalsFacts.

(* ------------------------------------------------------------------------- *)
(** * The theorems at work *)
(* ------------------------------------------------------------------------- *)

Module Examples.

Import Barrier.

#[local] Open Scope Z_scope.

(* Barriers with integers as keys and as values, and continuations known by
   their names. *)
Abbreviation World := (@Barrier.World Z _ _ Z string).
Abbreviation stmt := (@Barrier.stmt Z Z string).

(* Two increments and a registration, one call before [wait()] and one
   after. *)
Lemma barrier_crosses_exactly_once_witness :
  let pre : list stmt :=
    [DoIncrement 1; DoRegister "stub" true; DoCall [] []; DoIncrement 1] in
  let post : list stmt := [DoCall [Some 7] []] in
  script (pre ++ DoWait :: post) __init__
  = (crossed_world [("stub", true)], Return tt)
  /\ forall front last,
       pre ++ DoWait :: post = front ++ [last] ->
       exists w : World, script front __init__ = (w, Return tt)
                         /\ _crossed (self w) = false /\ trace w = [].
Proof.
  intros pre post.
  apply (BarrierFacts.barrier_crosses_exactly_once pre post 2).
  - repeat constructor.
  - repeat constructor.
  - repeat constructor.
  - reflexivity.
  - reflexivity.
Defined.

(** C3, as the claim has it, fails: a new barrier that is called once is
    still edited and has a count of -1. *)
Lemma pending_count_negative_while_editing :
  let l : list stmt := [DoCall [] []] in
  let w : World := attempt l __init__ in
  Forall (fun s => is_core s = true) l
  /\ reachable w
  /\ editing w
  /\ _calls_pending (self w) = -1
  /\ ~ 0 <= _calls_pending (self w).
Proof.
  intros l w. split_and!.
  - repeat constructor.
  - by exists l.
  - done.
  - done.
  - simpl. lia.
Qed.

(* A barrier that waits for two calls and got one; a barrier that was called
   twice after an increment by one, and is then waited on. *)
Lemma pending_count_of_reachable_barrier_witness :
  let l1 : list stmt := [DoIncrement 2; DoWait; DoCall [] []] in
  let l2 : list stmt := [DoIncrement 1; DoCall [] []; DoCall [] []; DoWait] in
  let w2 : World := attempt l2 __init__ in
  1 <= _calls_pending (self (attempt l1 __init__))
  /\ _calls_pending (self w2) = incremented l2 - invocations l2
  /\ wait w2
     = (w2, Raise (RuntimeError "barrier already called more times than expected")).
Proof.
  intros l1 l2 w2. split_and!.
  - apply (BarrierFacts.pending_count_of_reachable_barrier l1 _ eq_refl).
    by split.
  - apply (BarrierFacts.pending_count_of_reachable_barrier l2 _ eq_refl).
    + repeat constructor.
    + by split.
  - apply (BarrierFacts.pending_count_of_reachable_barrier l2 _ eq_refl).
    + by split.
    + reflexivity.
Defined.

(* The slot of key 5 is created, the barrier is waited on, the slot is
   called with 7, the barrier is called once more. *)
Lemma stored_result_keeps_value_witness :
  let w1 : World := (create_stored_result_callback 5 __init__).1 in
  let w2 := (StoredResult_call 0%nat (Some 7) (attempt [DoWait] w1)).1 in
  let w3 := attempt [DoCall [] []] w2 in
  StoredResult_value 0%nat w3 = (w3, Return (Some 7))
  /\ get_result 5 w3 = (w3, Return (Some 7))
  /\ forall value',
       StoredResult_call 0%nat value' w3
       = (w3, Raise (RuntimeError "stored result can store only one value")).
Proof.
  intros w1 w2 w3.
  apply (BarrierFacts.stored_result_keeps_value __init__ 5 0%nat w1 [DoWait]
           (Some 7) [DoCall [] []]).
  - reflexivity.
  - repeat constructor. intros v. discriminate.
Defined.

(* The barrier has a slot for key 5 and crosses by a call of its own; then
   the slot is called with 7. *)
Lemma slot_call_on_crossed_barrier_witness :
  let w : World := attempt [DoGetItem 5; DoWait; DoCall [] []] __init__ in
  let r := StoredResult_init ThisBarrier 5 in
  let r' := mkStoredResult (Some ThisBarrier) (_key r) (Some 7) true in
  let w' : World := mkWorld (self w) (<[0%nat := r']> (heap w)) (trace w) in
  crossed w
  /\ heap w !! 0%nat = Some r
  /\ (StoredResult_call 0%nat (Some 7) w
      = (w', Raise (RuntimeError "unexpected call after crossing barrier"))
      /\ heap w' !! 0%nat = Some r'
      /\ StoredResult_value 0%nat w' = (w', Return (Some 7))
      /\ forall value',
           StoredResult_call 0%nat value' w'
           = (w', Raise (RuntimeError "stored result can store only one value"))).
Proof.
  intros w r r' w'. split; [reflexivity|]. split; [reflexivity|].
  apply (BarrierFacts.slot_call_on_crossed_barrier w 0%nat r (Some 7)).
  - reflexivity.
  - reflexivity.
  - reflexivity.
  - reflexivity.
Defined.

(* The first [barrier[5]] of a new barrier. *)
Lemma getitem_creates_once_witness :
  let w1 : World := (__getitem__ 5 __init__).1 in
  (0%nat = length (heap (__init__ : World))
   /\ heap w1 = heap (__init__ : World) ++ [StoredResult_init ThisBarrier 5]
   /\ _stored_results (self w1) = <[5 := 0%nat]> (_stored_results (self (__init__ : World)))
   /\ _calls_pending (self w1) = _calls_pending (self (__init__ : World)) + 1)
  /\ forall mid,
       let w2 := attempt mid w1 in __getitem__ 5 w2 = (w2, Return 0%nat).
Proof.
  intros w1.
  apply (BarrierFacts.getitem_creates_once __init__ 5 w1 0%nat).
  - reflexivity.
  - reflexivity.
Defined.

(** C5, as the claim has it, fails: a blocker with a timeout of 20 ms times
    out, and is then called with 7.  The call is not discarded: the blocker
    is marked as called and holds the 7, and a later [wait()] returns as if
    the call had come in time. *)
Lemma late_call_after_timeout_not_discarded :
  let b : @Blocker.CallbackBlocker Z := Blocker.__init__ (Some 20) None in
  let b1 := Blocker.timed_out b in
  let b2 := (Blocker.__call__ [7] [] b1).1 in
  Blocker.wait [Blocker.TimerExpired] b
  = Some (b1, Raise (TimeoutError "Callback wasn't called after 20ms."))
  /\ Blocker.__call__ [7] [] b1 = (b2, Return tt)
  /\ Blocker.called b1 = false /\ Blocker.args b1 = None
  /\ Blocker.called b2 = true /\ Blocker.args b2 = Some [7]
  /\ Blocker.wait [] b2 = Some (b2, Return tt)
  /\ ~ (Blocker.called b2 = Blocker.called b1
        /\ Blocker.args b2 = Blocker.args b1
        /\ Blocker.kwargs b2 = Blocker.kwargs b1).
Proof.
  intros b b1 b2. split_and!; try reflexivity.
  intros (Hcalled & _ & _). vm_compute in Hcalled. discriminate.
Qed.

(* A blocker with the default timeout whose timer expires, and a call that
   comes too late. *)
Lemma late_call_after_timeout_is_kept_witness :
  let b : @Blocker.CallbackBlocker Z :=
    Blocker.__init__ (Some Blocker.DEFAULT_TIMEOUT) None in
  let b1 := Blocker.timed_out b in
  let b2 := Blocker.completed [7] [] b1 in
  Blocker.called b1 = false
  /\ Blocker._loop b1 = false
  /\ Blocker.__call__ [7] [] b1 = (b2, Return tt)
  /\ (Blocker.called b2 = true /\ Blocker.args b2 = Some [7]
      /\ Blocker.kwargs b2 = Some [] /\ Blocker._loop b2 = false)
  /\ Blocker.wait [Blocker.TimerExpired] b2 = Some (b2, Return tt)
  /\ Blocker.__call__ [8] [] b2
     = (b2, Raise (CallbackCalledTwiceError "Callback called twice")).
Proof.
  intros b b1.
  apply (BlockerFacts.late_call_after_timeout_is_kept b [Blocker.TimerExpired] b1
           "Callback wasn't called after 1000ms." [Blocker.TimerExpired]
           [7] [8] [] []).
  reflexivity.
Defined.

(** ** The scenarios of [tests/test_callback_blocker.py]

    The continuation is registered with [register]; keys are strings and
    values are integers or strings. *)

Abbreviation TWorld := (@Barrier.World string _ _ pyval string).
Abbreviation tstmt := (@Barrier.stmt string pyval string).

(* [test_callback_barrier_no_expected_calls] *)
Example no_expected_calls :
  trace (script ([DoRegister "stub" false; DoExit None] : list tstmt) __init__).1
  = [CrossBarrier; Invoked "stub" None].
Proof. reflexivity. Qed.

(* [test_callback_barrier_stored_result]: nothing is called until the fourth
   call, and then the two values can be read. *)
Example stored_result_scenario :
  let scope : list tstmt :=
    [DoRegister "stub" true; DoIncrement 2; DoGetItem "foo"; DoGetItem "bar";
     DoExit None] in
  let calls : list tstmt :=
    [DoCall [Some (PyInt 1); Some (PyInt 2)] []; DoSlotCall 0%nat (Some (PyInt 7));
     DoSlotCall 1%nat (Some (PyStr "blue"))] in
  let last : tstmt := DoCall [Some (PyStr "a"); Some (PyStr "b")] [] in
  let w1 : TWorld := (script (scope ++ calls) __init__).1 in
  let w2 : TWorld := (script (scope ++ calls ++ [last]) __init__).1 in
  trace w1 = []
  /\ trace w2 = [CrossBarrier; Invoked "stub" (Some ThisBarrier)]
  /\ get_result "foo" w2 = (w2, Return (Some (PyInt 7)))
  /\ get_result "bar" w2 = (w2, Return (Some (PyStr "blue"))).
Proof. by vm_compute. Qed.

(* [test_callback_barrier_error_increment_after_wait] *)
Example error_increment_after_wait :
  let w : TWorld :=
    (script [DoRegister "stub" true; DoIncrement 1;
             DoCreateStoredResultCallback "foo"; DoExit None] __init__).1 in
  (increment 1 w).2 = Raise (RuntimeError "can't increment barrier after wait")
  /\ (create_stored_result_callback "bar" w).2
     = Raise (RuntimeError "can't increment barrier after wait").
Proof. by vm_compute. Qed.

(* [test_callback_barrier_error_call_on_crossed_barrier] *)
Example error_call_on_crossed_barrier :
  script ([DoRegister "stub" true; DoIncrement 1; DoExit None; DoCall [] [];
           DoCall [] []] : list tstmt) __init__
  = (crossed_world [("stub", true)],
     Raise (RuntimeError "unexpected call after crossing barrier")).
Proof. by vm_compute. Qed.

(* [test_callback_barrier_error_call_twice_stored_result] *)
Example error_call_twice_stored_result :
  let w : TWorld :=
    (script [DoRegister "stub" true; DoCreateStoredResultCallback "foo";
             DoExit None; DoSlotCall 0%nat None] __init__).1 in
  trace w = [CrossBarrier; Invoked "stub" (Some ThisBarrier)]
  /\ StoredResult_call 0%nat None w
     = (w, Raise (RuntimeError "stored result can store only one value")).
Proof. by vm_compute. Qed.

(* A continuation that raises ends the crossing: the exception leaves
   [wait()], the barrier has crossed, and the continuations after it are
   dropped without having been called. *)
Example crossing_stops_at_raising_continuation :
  script ([DoRegister "first" false; DoRegister "boom" false;
           DoRegister "last" false; DoWait] : list tstmt) __init__
  = (mkWorld (mkCallbackBarrier false true 0 ∅ []) []
       [CrossBarrier; Invoked "first" None; Invoked "boom" None],
     Raise (RuntimeError "boom")).
Proof. by vm_compute. Qed.

(* A body that raises.  The scope of a blocker ends at once, though no event
   would ever have ended a wait; the scope of a barrier waits, so that the
   barrier crosses and calls its continuation, and the exception of the body
   goes on after that. *)
Example scope_exit_after_exception :
  Blocker.with_ (raise (ValueError "body")) []
    (Blocker.__init__ None None : @Blocker.CallbackBlocker pyval)
  = Some (Blocker.__init__ None None, Raise (ValueError "body"))
  /\ Barrier.with_ (register "stub" false ;; raise (ValueError "body"))
       (__init__ : TWorld)
     = (crossed_world [("stub", false)], Raise (ValueError "body")).
Proof. by vm_compute. Qed.

(** ** [test_invalid_api_call] of [tests/test_qt_js_integration.py]

    A blocker is the callback of a call of the function BOOM, which the
    page does not have. *)

(* The test expects that in debug mode the guard raises
   [InvalidJavaScriptError] in the event loop.  With [QmxGraph.is_loaded] as
   it is, the call raises [TypeError] before anything is asked.  Had the
   scope of the blocker been entered, the blocker would never be called and
   the scope would end with [TimeoutError] when the timer expires. *)
Example invalid_api_call_debug :
  let page := Api.mkWebView true true in
  let prepare_js_call := fun (fn : string) (_ : list pyval) => fn +:+ "()" in
  Api.call_api prepare_js_call page true "cb" "BOOM" [] []
  = ([], Raise (TypeError "is_loaded() takes 1 positional argument but 2 were given"))
  /\ Blocker.with_ (mret tt) [Blocker.TimerExpired]
       (Blocker.__init__ (Some Blocker.DEFAULT_TIMEOUT) None
          : @Blocker.CallbackBlocker pyval)
     = Some (Blocker.timed_out (Blocker.__init__ (Some 1000) None),
             Raise (TimeoutError "Callback wasn't called after 1000ms.")).
Proof. by vm_compute. Qed.

(* Without debug mode the call is made at once, whether or not the page has
   the function. *)
Example invalid_api_call_no_debug :
  let page := Api.mkWebView true true in
  let prepare_js_call := fun (fn : string) (_ : list pyval) => fn +:+ "()" in
  Api.call_api prepare_js_call page false "cb" "BOOM" [] []
  = ([Api.EvalJs (Api.ResultCallback "cb") "api.BOOM()"], Return "cb").
Proof. reflexivity. Qed.

End Examples.

(* ------------------------------------------------------------------------- *)
(** * Further theorems at work *)
(* ------------------------------------------------------------------------- *)

Module MoreExamples.

#[local] Open Scope Z_scope.

Module OnBarrier.

Import Barrier.

Abbreviation World := (@Barrier.World Z _ _ Z string).
Abbreviation stmt := (@Barrier.stmt Z Z string).

(* Three continuations; the first two are called at the crossing, the third
   when it is registered after it. *)
Lemma continuations_called_once_witness :
  let l : list stmt :=
    [DoRegister "a" true; DoIncrement 1; DoRegister "b" false; DoWait;
     DoCall [] []; DoRegister "c" false] in
  calls_made (trace (attempt l __init__))
  ++ map invocation (_to_execute_after_barrier (self (attempt l __init__)))
  = map invocation (registered l).
Proof.
  intros l. apply (BarrierMore.continuations_called_once l).
  repeat constructor.
Defined.

(* A barrier that crossed and was called once more. *)
Lemma crossed_barrier_is_spent_witness :
  let l : list stmt :=
    [DoRegister "stub" true; DoIncrement 1; DoWait; DoCall [] []; DoCall [] []] in
  let w : World := attempt l __init__ in
  _calls_pending (self w) = 0
  /\ _waiting_on_barrier (self w) = false
  /\ _to_execute_after_barrier (self w) = [].
Proof.
  intros l w. apply (BarrierMore.crossed_barrier_is_spent w).
  - by exists l.
  - reflexivity.
Defined.

(* A barrier with no expected call crosses at [wait()]; a continuation is
   registered after that. *)
Lemma late_registration_runs_at_once_witness :
  let w : World := attempt [DoWait] __init__ in
  register "late" true w
  = (mkWorld (self w) (heap w)
       (trace w ++ [CrossBarrier; invocation ("late", true)]),
     match raises "late" with Some e => Raise e | None => Return tt end).
Proof.
  intros w. apply (BarrierMore.late_registration_runs_at_once w "late" true).
  - by exists [DoWait : stmt].
  - reflexivity.
Defined.

(* [wait()] on a barrier that expects one call; then the call. *)
Lemma no_second_wait_no_late_increment_witness :
  let w : World := attempt [DoIncrement 1] __init__ in
  let w1 := (wait w).1 in
  let w2 := attempt [DoCall [] []] w1 in
  wait w2
  = (w2, Raise (RuntimeError (if _crossed (self w2)
                              then "can't wait on crossed barrier"
                              else "already waiting on barrier")))
  /\ increment 1 w2
     = (w2, Raise (RuntimeError "can't increment barrier after wait")).
Proof.
  intros w w1.
  apply (BarrierMore.no_second_wait_no_late_increment w w1 [DoCall [] []] 1).
  reflexivity.
Defined.

(* A barrier with a slot for key 5; after [wait()] the slot is called, and
   key 6 is asked for. *)
Lemma slots_fixed_after_wait_witness :
  let w : World := attempt [DoGetItem 5] __init__ in
  let w1 := (wait w).1 in
  let w2 := attempt [DoSlotCall 0%nat (Some 7)] w1 in
  _stored_results (self w2) = _stored_results (self w1)
  /\ (__getitem__ 6 w2).2
     = Raise (RuntimeError "can't increment barrier after wait")
  /\ (create_stored_result_callback 6 w2).2
     = Raise (RuntimeError "can't increment barrier after wait")
  /\ self (__getitem__ 6 w2).1 = self w2
  /\ self (create_stored_result_callback 6 w2).1 = self w2.
Proof.
  intros w w1 w2.
  destruct (BarrierMore.slots_fixed_after_wait w w1 [DoSlotCall 0%nat (Some 7)] 6
              eq_refl) as [Hsame Hnew].
  split; [exact Hsame|]. apply Hnew. reflexivity.
Defined.

(* Two slots, one of them called. *)
Lemma reachable_well_formed_witness :
  let l : list stmt :=
    [DoGetItem 5; DoGetItem 6; DoWait; DoSlotCall 0%nat (Some 7)] in
  well_formed (attempt l __init__ : World).
Proof.
  intros l. apply (BarrierMore.reachable_well_formed (attempt l __init__)).
  by exists l.
Defined.

(* The only expected call of a barrier is that of its slot: the call of the
   slot makes the barrier cross. *)
Lemma slot_call_is_barrier_call_witness :
  let w : World := attempt [DoRegister "stub" true; DoGetItem 5; DoWait] __init__ in
  let r : @StoredResult Z := StoredResult_init ThisBarrier 5 in
  let c := __call__ [Some 7] [] w in
  StoredResult_call 0%nat (Some 7) w
  = (mkWorld (self c.1)
       (<[0%nat := mkStoredResult
                 (match c.2 with Return _ => None | Raise _ => Some ThisBarrier end)
                 (_key r) (Some 7) true]> (heap w))
       (trace c.1),
     c.2).
Proof.
  intros w r.
  apply (BarrierMore.slot_call_is_barrier_call w 0%nat r (Some 7)).
  - by exists [DoRegister "stub" true; DoGetItem 5; DoWait : stmt].
  - reflexivity.
  - reflexivity.
Defined.

(* Key 5 has a slot; the barrier is waited on and the slot is called. *)
Lemma key_never_reused_witness :
  let w : World := attempt [DoGetItem 5] __init__ in
  let w' := attempt [DoWait; DoSlotCall 0%nat (Some 1)] w in
  _stored_results (self w') !! 5 = Some 0%nat
  /\ create_stored_result_callback 5 w'
     = (w', Raise (ValueError
                     ("stored result " +:+ dquote +:+ "key" +:+ dquote
                      +:+ " already in use (" +:+ dquote +:+ "key" +:+ dquote
                      +:+ "s should be unique)"))).
Proof.
  intros w.
  apply (BarrierMore.key_never_reused w 5 0%nat [DoWait; DoSlotCall 0%nat (Some 1)]).
  reflexivity.
Defined.

(* The slot of key 5 is created; the barrier is waited on and called, but
   the slot is not. *)
Lemma get_result_before_delivery_witness :
  let w1 : World := (create_stored_result_callback 5 __init__).1 in
  let l : list stmt := [DoWait; DoCall [] []] in
  get_result 5 (attempt l w1)
  = (attempt l w1, Raise (AssertionError ("stored results key: " +:+ repr 5))).
Proof.
  intros w1 l.
  apply (BarrierMore.get_result_before_delivery __init__ 5 0%nat w1 l).
  - reflexivity.
  - repeat (constructor; [intros v; discriminate|]). constructor.
Defined.

(* Key 5 has a slot, key 6 was never asked for. *)
Lemma get_result_of_unknown_key_witness :
  let l : list stmt := [DoGetItem 5; DoWait] in
  get_result 6 (attempt l __init__ : World)
  = (attempt l __init__, Raise (KeyError (repr 6))).
Proof.
  intros l. apply (BarrierMore.get_result_of_unknown_key l 6).
  apply (bool_decide_unpack _). by vm_compute.
Defined.

End OnBarrier.

Module OnBlocker.

Import Blocker.

Abbreviation CallbackBlocker := (@Blocker.CallbackBlocker pyval).
Abbreviation stmt := (@Blocker.stmt pyval).

(* The timer of a new blocker expires before the callback is called. *)
Lemma wait_is_decided_by_one_event_witness :
  let b : CallbackBlocker := __init__ (Some DEFAULT_TIMEOUT) None in
  let events := [TimerExpired; CallbackFired [PyInt 1] []] in
  wait events b
  = match decisive (has_timer b) events with
    | None => None
    | Some (CallbackFired args kwargs) => Some (completed args kwargs b, Return tt)
    | Some TimerExpired =>
        Some (timed_out b, Raise (TimeoutError (timeout_message b)))
    end.
Proof.
  intros b events. apply (BlockerMore.wait_is_decided_by_one_event events b).
  reflexivity.
Defined.

(* A wait that times out, a wait that is ended by the call, a second call. *)
Lemma blocker_stays_ok_witness :
  let l : list stmt :=
    [DoWait [TimerExpired]; DoWait [CallbackFired [PyInt 1] []];
     DoCall [PyInt 2] []] in
  blocker_ok (completed [PyInt 1] [] (__init__ (Some 10) None : CallbackBlocker)).
Proof.
  intros l.
  apply (BlockerMore.blocker_stays_ok (Some 10) None l).
  reflexivity.
Defined.

(* The callback is called before the scope ends; then a second call, a wait
   and an exit. *)
Lemma first_call_is_final_witness :
  let b : CallbackBlocker := __init__ (Some DEFAULT_TIMEOUT) None in
  let b1 := (__call__ [PyStr "done"] [] b).1 in
  let l : list stmt :=
    [DoCall [PyInt 2] []; DoWait [TimerExpired]; DoExit None []] in
  attempt l b1 = Some b1
  /\ Blocker.args b1 = Some [PyStr "done"]
  /\ Blocker.kwargs b1 = Some []
  /\ wait [TimerExpired] b1 = Some (b1, Return tt).
Proof.
  intros b b1 l.
  apply (BlockerMore.first_call_is_final [PyStr "done"] [] b b1 l [TimerExpired]).
  reflexivity.
Defined.

(* After a timeout, the timer expiring again is no event for the loop. *)
Lemma no_second_timeout_witness :
  let b : CallbackBlocker := __init__ (Some DEFAULT_TIMEOUT) None in
  let b1 := timed_out b in
  let events' := [TimerExpired; CallbackFired [PyInt 1] []] in
  wait events' b1
  = match decisive false events' with
    | Some (CallbackFired args kwargs) => Some (completed args kwargs b1, Return tt)
    | _ => None
    end.
Proof.
  intros b b1 events'.
  apply (BlockerMore.no_second_timeout [TimerExpired] b b1
           "Callback wasn't called after 1000ms." events').
  reflexivity.
Defined.

End OnBlocker.

Module OnSignals.

Import Signals.

(* The bridge that is connected already is set again, after another one. *)
Lemma error_bridges_accumulate_witness :
  let sig : list string := ["first"] in
  let sig' := successively set_error_bridge (["second"] ++ ["first"]) sig in
  NoDup sig'
  /\ (forall x, x ∈ sig' <-> x ∈ sig \/ x ∈ ["second"] ++ ["first"])
  /\ last sig' = Some "first"
  /\ (set_error_bridge "first" sig).2 = Return tt.
Proof.
  intros sig.
  apply (SignalsFacts.error_bridges_accumulate ["second"] "first" sig).
  apply (bool_decide_unpack _). by vm_compute.
Defined.

(* Two bridges for events, on a widget with no connection yet. *)
Lemma events_bridges_accumulate_witness :
  let st : string -> list string := fun _ => [] in
  let n := "on_cells_added" in
  let st' := successively set_events_bridge ["one"; "two"] st in
  (set_events_bridge "three" st).2 = Return tt
  /\ NoDup (st' n)
  /\ (n ∈ EventsBridge_signals ->
      forall x, x ∈ st' n <-> x ∈ st n \/ x ∈ ["one"; "two"])
  /\ (n ∉ EventsBridge_signals -> st' n = st n).
Proof.
  intros st n.
  apply (SignalsFacts.events_bridges_accumulate ["one"; "two"] "three" st n).
  constructor.
Defined.

End OnSignals.

End MoreExamples.
